(** * Color assignment with lazy expiry: a shallow embedding of
      [color_assignment_v3.py] and the properties of its two operations.

    Conventions of the embedding.
    - A Python [dict] is an insertion-ordered association list with unique
      keys ([Dict.t]); [d[k] = v] overwrites in place or appends, [del d[k]]
      and [d[k]] raise [KeyError] on a missing key.
    - Wall-clock readings ([time()]) are rational numbers of seconds that the
      caller of the model supplies; [color_for_compound] reads the clock
      twice (once itself, once inside the sweep it calls), so it takes two
      readings.  A reading is the rational value of a binary64 float;
      the one operation the code applies to readings, the subtraction of
      line 67, rounds to the nearest binary64 value, ties to even
      ([float_sub]); the exponent is not bounded above, which leaves the
      comparison with the timeout as it is (an overflow is above it).
    - A color is the triple of its three channel literals; colors are only
      ever copied and compared, never computed with.
    - A method returns its outcome together with the state of the object
      after the call, also when it raises. *)

From Stdlib Require Import List String Arith ZArith QArith Qround Qpower Lqa Lia Bool.
Import ListNotations.

(** ** Decidable equality on dictionary keys *)

Class EqDec (K : Type) := eq_dec : forall x y : K, {x = y} + {x <> y}.

#[export] Instance string_EqDec : EqDec string := string_dec.
#[export] Instance bool_EqDec : EqDec bool := bool_dec.

#[export] Instance Q_EqDec : EqDec Q.
Proof.
  intros [a b] [c d].
  destruct (Z.eq_dec a c) as [->|Hn]; [|right; congruence].
  destruct (Pos.eq_dec b d) as [->|Hd]; [left; reflexivity|right; congruence].
Defined.

#[export] Instance prod_EqDec (A B : Type) `{EqDec A} `{EqDec B} : EqDec (A * B).
Proof.
  intros [a b] [c d].
  destruct (eq_dec a c) as [->|Hn]; [|right; congruence].
  destruct (eq_dec b d) as [->|Hd]; [left; reflexivity|right; congruence].
Defined.

(** ** Python dictionaries and [list.index] *)

Module Dict.
Section Defs.
Context {K V : Type} `{EqDec K}.

Definition t : Type := list (K * V).

Definition empty : t := [].

(** [d[k]]; [None] stands for [KeyError]. *)
Fixpoint get (k : K) (d : t) : option V :=
  match d with
  | [] => None
  | (k', v) :: d' => if eq_dec k k' then Some v else get k d'
  end.

(** [k in d] *)
Definition contains (k : K) (d : t) : bool :=
  match get k d with Some _ => true | None => false end.

(** [d[k] = v]: an existing key keeps its position, a new one goes last. *)
Fixpoint set (k : K) (v : V) (d : t) : t :=
  match d with
  | [] => [(k, v)]
  | (k', v') :: d' =>
      if eq_dec k k' then (k, v) :: d' else (k', v') :: set k v d'
  end.

Definition remove (k : K) (d : t) : t :=
  filter (fun kv => if eq_dec k (fst kv) then false else true) d.

(** [del d[k]]; [None] stands for [KeyError]. *)
Definition del (k : K) (d : t) : option t :=
  if contains k d then Some (remove k d) else None.

Definition keys (d : t) : list K := map fst d.
Definition values (d : t) : list V := map snd d.
End Defs.
Arguments t : clear implicits.
End Dict.

(** [l.index(x)]; [None] stands for [ValueError]. *)
Fixpoint index {A : Type} `{EqDec A} (x : A) (l : list A) : option nat :=
  match l with
  | [] => None
  | y :: l' =>
      if eq_dec x y then Some O
      else match index x l' with Some i => Some (S i) | None => None end
  end.

(** ** The module *)

Open Scope Q_scope.
Open Scope string_scope.
Open Scope list_scope.

Definition color : Type := (Q * Q * Q)%type.

Definition TIMEOUT_SEC : Q := 1.0.

Inductive exn : Type := NoAvailableColors | KeyError | IndexError.

Inductive result (A : Type) : Type :=
| Ok (a : A)
| Raise (e : exn).
Arguments Ok {A} a.
Arguments Raise {A} e.

Definition _palette : list color :=
  [ (0.9, 0.0, 0.04);
    (0.54, 0.16, 0.8);
    (1.0, 0.48, 0.0);
    (0.94, 0.29, 0.75);
    (0.1, 0.78, 0.21) ].

(** The attributes of a [ColorAssigner] object.  [self_palette] is the
    attribute [self._palette]; the other [_palette] is the module's table. *)
Record ColorAssigner : Type := mkColorAssigner {
  self_palette : list color;
  _compound_to_color : Dict.t string color;
  _compound_last_used : Dict.t string Q;
  _color_avaliable : Dict.t color bool
}.

Definition with_compound_to_color (d : Dict.t string color) (s : ColorAssigner) :=
  mkColorAssigner (self_palette s) d (_compound_last_used s) (_color_avaliable s).
Definition with_compound_last_used (d : Dict.t string Q) (s : ColorAssigner) :=
  mkColorAssigner (self_palette s) (_compound_to_color s) d (_color_avaliable s).
Definition with_color_avaliable (d : Dict.t color bool) (s : ColorAssigner) :=
  mkColorAssigner (self_palette s) (_compound_to_color s) (_compound_last_used s) d.

(** [ColorAssigner.__init__]: the availability table is built from the
    module's [_palette], not from the argument. *)
Definition __init__ (palette : list color) : ColorAssigner :=
  {| self_palette := palette;
     _compound_to_color := Dict.empty;
     _compound_last_used := Dict.empty;
     _color_avaliable :=
       fold_left (fun d color => Dict.set color true d) _palette Dict.empty |}.

(** [x > y] on clock readings. *)
Definition Qgt_bool (x y : Q) : bool := negb (Qle_bool x y).

(** ** Binary64 arithmetic on clock readings *)

(** The nearest integer, ties to the even one. *)
Definition round_half_even (x : Q) : Z :=
  let f := Qfloor x in
  match Qcompare (x - inject_Z f) (1 # 2) with
  | Lt => f
  | Gt => (f + 1)%Z
  | Eq => if Z.even f then f else (f + 1)%Z
  end.

(** The exponent [e] with [2^e <= x < 2^(e+1)], for a positive [x]. *)
Definition binade (x : Q) : Z :=
  let e := (Z.log2 (Qnum x) - Z.log2 (Zpos (Qden x)))%Z in
  if Qle_bool (2 ^ e) x then e else (e - 1)%Z.

(** Rounding of a positive rational to 53 significant bits, with the
    spacing of the subnormal numbers below [2^(-1022)]. *)
Definition round64_pos (x : Q) : Q :=
  let q := (Z.max (binade x) (-1022) - 52)%Z in
  inject_Z (round_half_even (x / 2 ^ q)) * 2 ^ q.

(** The binary64 value nearest to [x], ties to even: what a float
    operation returns whose exact result is [x], and the value of the float
    literal written [x]. *)
Definition round64 (x : Q) : Q :=
  match Qcompare x 0 with
  | Eq => 0
  | Gt => round64_pos x
  | Lt => - round64_pos (- x)
  end.

(** [x - y] on floats. *)
Definition float_sub (x y : Q) : Q := round64 (x - y).

(** The dictionary objects a method can hand out.  The only one is the
    [_compound_to_color] attribute itself: [get_compound_to_color_assignments]
    returns that object, not a copy, so what a holder of the reference sees
    is the attribute of whatever state the assigner is in. *)
Inductive dict_ref : Type := self_compound_to_color.

Definition deref (s : ColorAssigner) (r : dict_ref) : Dict.t string color :=
  match r with self_compound_to_color => _compound_to_color s end.

(** First loop of [get_compound_to_color_assignments] (lines 66-70). *)
Fixpoint mark_expired (current_time : Q) (items : list (string * Q))
    (expired_compound_assignemnt : list string) (s : ColorAssigner)
  : result (list string) * ColorAssigner :=
  match items with
  | [] => (Ok expired_compound_assignemnt, s)
  | (compound, last_used) :: rest =>
      if Qgt_bool (float_sub current_time last_used) TIMEOUT_SEC then
        match Dict.get compound (_compound_to_color s) with
        | None => (Raise KeyError, s)
        | Some color =>
            mark_expired current_time rest
              (expired_compound_assignemnt ++ [compound])
              (with_color_avaliable (Dict.set color true (_color_avaliable s)) s)
        end
      else mark_expired current_time rest expired_compound_assignemnt s
  end.

(** Second loop (lines 72-74). *)
Fixpoint delete_expired (expired_compound_assignemnt : list string)
    (s : ColorAssigner) : result unit * ColorAssigner :=
  match expired_compound_assignemnt with
  | [] => (Ok tt, s)
  | compound :: rest =>
      match Dict.del compound (_compound_last_used s) with
      | None => (Raise KeyError, s)
      | Some last_used' =>
          let s1 := with_compound_last_used last_used' s in
          match Dict.del compound (_compound_to_color s1) with
          | None => (Raise KeyError, s1)
          | Some to_color' =>
              delete_expired rest (with_compound_to_color to_color' s1)
          end
      end
  end.

Definition get_compound_to_color_assignments (current_time : Q)
    (s : ColorAssigner) : result dict_ref * ColorAssigner :=
  match mark_expired current_time (_compound_last_used s) [] s with
  | (Raise e, s1) => (Raise e, s1)
  | (Ok expired_compound_assignemnt, s1) =>
      match delete_expired expired_compound_assignemnt s1 with
      | (Raise e, s2) => (Raise e, s2)
      | (Ok _, s2) => (Ok self_compound_to_color, s2)
      end
  end.

(** [color_for_compound]: [current_time] is the reading of line 43,
    [sweep_time] the one the sweep takes at line 64. *)
Definition color_for_compound (current_time sweep_time : Q) (compound : string)
    (s : ColorAssigner) : result color * ColorAssigner :=
  match get_compound_to_color_assignments sweep_time s with
  | (Raise e, s1) => (Raise e, s1)
  | (Ok compound_to_color_assignment, s1) =>
      if Dict.contains compound (deref s1 compound_to_color_assignment) then
        let s2 :=
          with_compound_last_used
            (Dict.set compound current_time (_compound_last_used s1)) s1 in
        match Dict.get compound (deref s2 compound_to_color_assignment) with
        | Some color => (Ok color, s2)
        | None => (Raise KeyError, s2)
        end
      else
        match index true (Dict.values (_color_avaliable s1)) with
        | None => (Raise NoAvailableColors, s1)
        | Some color_index =>
            match nth_error _palette color_index with
            | None => (Raise IndexError, s1)
            | Some color =>
                let s2 :=
                  with_color_avaliable
                    (Dict.set color false (_color_avaliable s1)) s1 in
                let s3 :=
                  with_compound_last_used
                    (Dict.set compound current_time (_compound_last_used s2)) s2 in
                (Ok color,
                 with_compound_to_color
                   (Dict.set compound color (_compound_to_color s3)) s3)
            end
        end
  end.

(** ** Sequences of calls *)

Inductive call : Type :=
| Color_for (current_time sweep_time : Q) (compound : string)
| Assignments (current_time : Q).

Inductive outcome : Type :=
| Returned_color (c : color)
| Returned_dict (d : Dict.t string color)
| Raised (e : exn).

Definition do_call (c : call) (s : ColorAssigner) : outcome * ColorAssigner :=
  match c with
  | Color_for current_time sweep_time compound =>
      match color_for_compound current_time sweep_time compound s with
      | (Ok col, s') => (Returned_color col, s')
      | (Raise e, s') => (Raised e, s')
      end
  | Assignments current_time =>
      match get_compound_to_color_assignments current_time s with
      | (Ok r, s') => (Returned_dict (deref s' r), s')
      | (Raise e, s') => (Raised e, s')
      end
  end.

Fixpoint run (calls : list call) (s : ColorAssigner)
  : list outcome * ColorAssigner :=
  match calls with
  | [] => ([], s)
  | c :: rest =>
      let (o, s1) := do_call c s in
      let (os, s2) := run rest s1 in
      (o :: os, s2)
  end.

(** ** State invariants *)

(** [compound] is bound to [c] in the assignment table. *)
Definition assigned (s : ColorAssigner) (compound : string) (c : color) : Prop :=
  Dict.get compound (_compound_to_color s) = Some c.

(** The assignment of [compound] is older than the timeout at [current_time]:
    the test of line 67. *)
Definition stale (current_time : Q) (s : ColorAssigner) (compound : string) : bool :=
  match Dict.get compound (_compound_last_used s) with
  | Some last_used => Qgt_bool (float_sub current_time last_used) TIMEOUT_SEC
  | None => false
  end.

(** What holds of every state the two methods can produce: the three
    dictionaries are dictionaries (unique keys), the availability table is
    keyed by the module's palette in its order, and the three invariants of
    the data model. *)
Record Inv (s : ColorAssigner) : Prop := {
  inv_last_used_keys : NoDup (Dict.keys (_compound_last_used s));
  inv_to_color_keys : NoDup (Dict.keys (_compound_to_color s));
  inv_avaliable_keys : Dict.keys (_color_avaliable s) = _palette;
  inv_lifecycle : forall l,
    Dict.contains l (_compound_to_color s) = Dict.contains l (_compound_last_used s);
  inv_unavailable : forall c,
    Dict.get c (_color_avaliable s) = Some false <-> exists l, assigned s l c;
  inv_exclusive : forall l1 l2 c, assigned s l1 c -> assigned s l2 c -> l1 = l2
}.

(** An executable test of the invariants. *)
Fixpoint nodupb {A : Type} `{EqDec A} (l : list A) : bool :=
  match l with
  | [] => true
  | x :: l' => (if in_dec eq_dec x l' then false else true) && nodupb l'
  end.

Definition Inv_check (s : ColorAssigner) : bool :=
  nodupb (Dict.keys (_compound_last_used s))
  && nodupb (Dict.keys (_compound_to_color s))
  && (if list_eq_dec eq_dec (Dict.keys (_color_avaliable s)) _palette
      then true else false)
  && forallb (fun l => Dict.contains l (_compound_last_used s))
       (Dict.keys (_compound_to_color s))
  && forallb (fun l => Dict.contains l (_compound_to_color s))
       (Dict.keys (_compound_last_used s))
  && forallb (fun c => Dict.contains c (_color_avaliable s))
       (Dict.values (_compound_to_color s))
  && forallb (fun cb =>
                Bool.eqb (snd cb)
                  (if in_dec eq_dec (fst cb) (Dict.values (_compound_to_color s))
                   then false else true))
       (_color_avaliable s)
  && nodupb (Dict.values (_compound_to_color s)).

(** The invariants in the words of the data model. *)
Definition state_invariants (s : ColorAssigner) : Prop :=
  (forall l, Dict.contains l (_compound_to_color s) = true
             <-> Dict.contains l (_compound_last_used s) = true)
  /\ (forall c, In c _palette ->
        (Dict.get c (_color_avaliable s) = Some false
         <-> exists l, assigned s l c /\ forall l', assigned s l' c -> l' = l)
        /\ (Dict.get c (_color_avaliable s) = Some true
            <-> forall l, ~ assigned s l c))
  /\ (forall l1 l2 c, assigned s l1 c -> assigned s l2 c -> l1 = l2).

(** Marking a list of colors available, as the first loop of the sweep does. *)
Definition release (cs : list color) (d : Dict.t color bool) : Dict.t color bool :=
  fold_left (fun d c => Dict.set c true d) cs d.

(** Deleting a list of keys, as the second loop of the sweep does. *)
Definition remove_all {V : Type} (ks : list string) (d : Dict.t string V) : Dict.t string V :=
  fold_left (fun d k => Dict.remove k d) ks d.

(** The entries of the timestamp table that the test of line 67 selects. *)
Definition stale_items (current_time : Q) (items : list (string * Q)) : list (string * Q) :=
  filter (fun kv => Qgt_bool (float_sub current_time (snd kv)) TIMEOUT_SEC) items.

(** What one sweep at clock reading [t] turns state [s] into. *)
Record swept (t : Q) (s s1 : ColorAssigner) : Prop := {
  swept_palette : self_palette s1 = self_palette s;
  swept_last_used : forall l,
    Dict.get l (_compound_last_used s1)
    = if stale t s l then None else Dict.get l (_compound_last_used s);
  swept_to_color : forall l,
    Dict.get l (_compound_to_color s1)
    = if stale t s l then None else Dict.get l (_compound_to_color s);
  swept_released : forall c,
    (exists l, stale t s l = true /\ assigned s l c) ->
    Dict.get c (_color_avaliable s1) = Some true;
  swept_kept : forall c,
    (forall l, assigned s l c -> stale t s l = false) ->
    Dict.get c (_color_avaliable s1) = Dict.get c (_color_avaliable s);
  swept_items :
    _compound_to_color s1
    = filter (fun kv => negb (stale t s (fst kv))) (_compound_to_color s);
  swept_noop : (forall l, stale t s l = false) -> s1 = s
}.

(** The two ways a successful lookup changes the swept state. *)
Definition refresh (compound : string) (current_time : Q) (s : ColorAssigner) :=
  with_compound_last_used
    (Dict.set compound current_time (_compound_last_used s)) s.

Definition allocate (compound : string) (current_time : Q) (c : color)
    (s : ColorAssigner) :=
  let s2 := with_color_avaliable (Dict.set c false (_color_avaliable s)) s in
  let s3 := with_compound_last_used
              (Dict.set compound current_time (_compound_last_used s2)) s2 in
  with_compound_to_color (Dict.set compound c (_compound_to_color s3)) s3.

(** [c] is the lowest-index color of the module's palette that the
    availability table of [s] marks available. *)
Definition lowest_available (s : ColorAssigner) (c : color) : Prop :=
  exists i, nth_error _palette i = Some c
    /\ Dict.get c (_color_avaliable s) = Some true
    /\ forall j c', (j < i)%nat -> nth_error _palette j = Some c' ->
         Dict.get c' (_color_avaliable s) = Some false.

(** Some states of the repository's tests: two labels assigned at time 0,
    and the palette used up at time 0. *)
Definition two_assigned : ColorAssigner :=
  snd (run [Color_for 0 0 "Ammoniak"; Color_for 0 0 "Benzol"] (__init__ _palette)).

Definition all_assigned : ColorAssigner :=
  snd (run [Color_for 0 0 "Ammoniak"; Color_for 0 0 "Benzol"; Color_for 0 0 "Aceton";
            Color_for 0 0 "Kohlenmonoxid"; Color_for 0 0 "Chloroform"]
         (__init__ _palette)).

(** Every sweep in [calls] happens within the timeout of the latest lookup
    of [L], whose timestamp is [u] when the sequence starts. *)
Fixpoint kept_fresh (L : string) (u : Q) (calls : list call) : Prop :=
  match calls with
  | [] => True
  | Color_for current_time sweep_time l :: rest =>
      sweep_time - u <= TIMEOUT_SEC
      /\ kept_fresh L (if eq_dec l L then current_time else u) rest
  | Assignments current_time :: rest =>
      current_time - u <= TIMEOUT_SEC /\ kept_fresh L u rest
  end.

(** What a call answers about [L] when [L] is bound to [c]. *)
Definition answers (L : string) (c : color) (cl : call) (o : outcome) : Prop :=
  match cl with
  | Color_for _ _ l => l = L -> o = Returned_color c
  | Assignments _ => exists d, o = Returned_dict d /\ Dict.get L d = Some c
  end.

(** A sequence of lookups, each with its two clock readings. *)
Definition lookups (cs : list (Q * Q * string)) : list call :=
  map (fun c => Color_for (fst (fst c)) (snd (fst c)) (snd c)) cs.

(** No sweep of the sequence finds a timestamp written earlier in the
    sequence, or one of [earlier], older than the timeout. *)
Fixpoint no_expiry (earlier : list Q) (cs : list (Q * Q * string)) : Prop :=
  match cs with
  | [] => True
  | (current_time, sweep_time, _) :: rest =>
      Forall (fun u => sweep_time - u <= TIMEOUT_SEC) earlier
      /\ no_expiry (current_time :: earlier) rest
  end.

(** The first [k] colors of the module's palette are taken, the others free. *)
Definition filled (k : nat) (s : ColorAssigner) : Prop :=
  forall i c, nth_error _palette i = Some c ->
    Dict.get c (_color_avaliable s) = Some (Nat.leb k i).

(** The same tables under another [self._palette]. *)
Definition with_self_palette (palette : list color) (s : ColorAssigner) :=
  mkColorAssigner palette (_compound_to_color s) (_compound_last_used s)
    (_color_avaliable s).

(** ** The repository's tests *)

(** [sleep] is a shift of the clock; a sleep of one second ends a little
    more than one second after it began. *)

Example test_color_assignment :
  fst (run [Color_for 0 0 "Ammoniak"; Color_for 0 0 "Benzol"; Color_for 0 0 "Aceton"]
         (__init__ _palette))
  = [Returned_color (0.9, 0.0, 0.04); Returned_color (0.54, 0.16, 0.8);
     Returned_color (1.0, 0.48, 0.0)].
Proof. vm_compute. reflexivity. Qed.

Example test_assigns_avialabe_color_after_expiration :
  fst (run [Color_for 0 0 "Ammoniak"; Color_for 0 0 "Benzol";
            Color_for 1.01 1.01 "Aceton"] (__init__ _palette))
  = [Returned_color (0.9, 0.0, 0.04); Returned_color (0.54, 0.16, 0.8);
     Returned_color (0.9, 0.0, 0.04)].
Proof. vm_compute. reflexivity. Qed.

Example test_no_avaiable_colors_for_new_compound :
  fst (run [Color_for 0 0 "Ammoniak"; Color_for 0 0 "Benzol"; Color_for 0 0 "Aceton";
            Color_for 0 0 "Kohlenmonoxid"; Color_for 0 0 "Chloroform";
            Color_for 0 0 "Methanol"] (__init__ _palette))
  = [Returned_color (0.9, 0.0, 0.04); Returned_color (0.54, 0.16, 0.8);
     Returned_color (1.0, 0.48, 0.0); Returned_color (0.94, 0.29, 0.75);
     Returned_color (0.1, 0.78, 0.21); Raised NoAvailableColors].
Proof. vm_compute. reflexivity. Qed.

Example test_color_assignment_complete_flow :
  fst (run [Color_for 0 0 "Ammoniak"; Color_for 0 0 "Benzol"; Color_for 0 0 "Aceton";
            Color_for 0.7 0.7 "Benzol"; Color_for 1.4 1.4 "Benzol";
            Color_for 1.4 1.4 "Aceton"] (__init__ _palette))
  = [Returned_color (0.9, 0.0, 0.04); Returned_color (0.54, 0.16, 0.8);
     Returned_color (1.0, 0.48, 0.0); Returned_color (0.54, 0.16, 0.8);
     Returned_color (0.54, 0.16, 0.8); Returned_color (0.9, 0.0, 0.04)].
Proof. vm_compute. reflexivity. Qed.

(** The dictionary the getter returns is the assigner's own table: whoever
    holds it sees what later calls do to the table. *)
Example returned_dictionary_is_the_attribute :
  match get_compound_to_color_assignments 0 (__init__ _palette) with
  | (Ok r, s1) =>
      deref s1 r = []
      /\ deref (snd (color_for_compound 0 0 "Ammoniak" s1)) r
         = [("Ammoniak", (0.9, 0.0, 0.04))]
  | (Raise _, _) => False
  end.
Proof. vm_compute. split; reflexivity. Qed.

(** The rounding of line 67: between the floats 0.1 and 1.1 lies a little
    more than the timeout, their float difference is the timeout, and the
    label is kept. *)
Example rounded_age_is_kept :
  TIMEOUT_SEC < round64 1.1 - round64 0.1
  /\ float_sub (round64 1.1) (round64 0.1) == TIMEOUT_SEC
  /\ fst (run [Color_for (round64 0.1) (round64 0.1) "Ammoniak";
               Assignments (round64 1.1)] (__init__ _palette))
     = [Returned_color (0.9, 0.0, 0.04);
        Returned_dict [("Ammoniak", (0.9, 0.0, 0.04))]].
Proof. split; [|split]; vm_compute; reflexivity. Qed.

(** ** Facts about dictionaries *)

Section DictFacts.
Context {K V : Type} `{EqDec K}.
Implicit Types (d : Dict.t K V) (k : K) (v : V).

Lemma get_set_eq k v d : Dict.get k (Dict.set k v d) = Some v.
Proof.
  induction d as [|[k' v'] d IH]; simpl.
  - destruct (eq_dec k k); congruence.
  - destruct (eq_dec k k') as [->|Hn]; simpl.
    + destruct (eq_dec k' k'); congruence.
    + destruct (eq_dec k k'); congruence.
Qed.

Lemma get_set_ne k k' v d : k <> k' -> Dict.get k' (Dict.set k v d) = Dict.get k' d.
Proof.
  intros Hne. induction d as [|[k0 v0] d IH]; simpl.
  - destruct (eq_dec k' k); congruence.
  - destruct (eq_dec k k0) as [->|Hn]; simpl.
    + destruct (eq_dec k' k0); congruence.
    + destruct (eq_dec k' k0); congruence.
Qed.

Lemma get_Some_In k v d : Dict.get k d = Some v -> In (k, v) d.
Proof.
  induction d as [|[k0 v0] d IH]; simpl; [discriminate|].
  destruct (eq_dec k k0) as [->|Hn]; intros Hg.
  - left. congruence.
  - right. auto.
Qed.

Lemma get_None_iff k d : Dict.get k d = None <-> ~ In k (Dict.keys d).
Proof.
  induction d as [|[k0 v0] d IH]; simpl; [tauto|].
  destruct (eq_dec k k0) as [->|Hn].
  - split; [discriminate|]. intros Hc. exfalso. apply Hc. now left.
  - rewrite IH. split; intros Hc; [intros [He|Hi]; [congruence|tauto]|tauto].
Qed.

Lemma contains_true_iff k d : Dict.contains k d = true <-> In k (Dict.keys d).
Proof.
  unfold Dict.contains. destruct (Dict.get k d) eqn:E.
  - split; [intros _|reflexivity]. apply get_Some_In in E.
    apply (in_map fst) in E. exact E.
  - apply get_None_iff in E. split; [discriminate|tauto].
Qed.

Lemma contains_get k d : Dict.contains k d = true <-> exists v, Dict.get k d = Some v.
Proof.
  unfold Dict.contains. destruct (Dict.get k d) as [v|].
  - split; [eauto|reflexivity].
  - split; [discriminate|intros [v Hv]; discriminate].
Qed.

Lemma In_get k v d : NoDup (Dict.keys d) -> In (k, v) d -> Dict.get k d = Some v.
Proof.
  induction d as [|[k0 v0] d IH]; simpl; [tauto|].
  intros Hnd [He|Hi].
  - inversion He; subst. destruct (eq_dec k k); congruence.
  - inversion Hnd as [|? ? Hnotin Hnd']; subst.
    destruct (eq_dec k k0) as [->|Hn]; [|auto].
    exfalso. apply Hnotin. apply (in_map fst) in Hi. exact Hi.
Qed.

Lemma keys_set_in k v d :
  In k (Dict.keys d) -> Dict.keys (Dict.set k v d) = Dict.keys d.
Proof.
  induction d as [|[k0 v0] d IH]; simpl; [tauto|].
  intros Hin. destruct (eq_dec k k0) as [->|Hn]; simpl; [reflexivity|].
  f_equal. apply IH. destruct Hin; congruence.
Qed.

Lemma keys_set_notin k v d :
  ~ In k (Dict.keys d) -> Dict.keys (Dict.set k v d) = Dict.keys d ++ [k].
Proof.
  induction d as [|[k0 v0] d IH]; simpl; [reflexivity|].
  intros Hin. destruct (eq_dec k k0) as [->|Hn]; simpl; [tauto|].
  f_equal. apply IH. tauto.
Qed.

Lemma NoDup_keys_set k v d :
  NoDup (Dict.keys d) -> NoDup (Dict.keys (Dict.set k v d)).
Proof.
  intros Hnd. destruct (in_dec eq_dec k (Dict.keys d)) as [Hin|Hout].
  - now rewrite keys_set_in.
  - rewrite keys_set_notin by assumption.
    apply NoDup_app; [assumption|repeat constructor; simpl; tauto|].
    intros x Hx [<-|[]]. tauto.
Qed.

Lemma contains_set k k' v d :
  Dict.contains k' (Dict.set k v d)
  = if eq_dec k k' then true else Dict.contains k' d.
Proof.
  unfold Dict.contains. destruct (eq_dec k k') as [->|Hn].
  - now rewrite get_set_eq.
  - now rewrite get_set_ne.
Qed.

Lemma get_remove_eq k d : Dict.get k (Dict.remove k d) = None.
Proof.
  induction d as [|[k0 v0] d IH]; simpl; [reflexivity|].
  destruct (eq_dec k k0) as [->|Hn]; simpl; [assumption|].
  destruct (eq_dec k k0); congruence.
Qed.

Lemma get_remove_ne k k' d : k <> k' -> Dict.get k' (Dict.remove k d) = Dict.get k' d.
Proof.
  intros Hne. induction d as [|[k0 v0] d IH]; simpl; [reflexivity|].
  destruct (eq_dec k k0) as [->|Hn]; simpl.
  - destruct (eq_dec k' k0); congruence.
  - destruct (eq_dec k' k0); congruence.
Qed.

Lemma NoDup_keys_remove k d :
  NoDup (Dict.keys d) -> NoDup (Dict.keys (Dict.remove k d)).
Proof.
  induction d as [|[k0 v0] d IH]; simpl; [auto|].
  intros Hnd. inversion Hnd as [|? ? Hnotin Hnd']; subst.
  destruct (eq_dec k k0) as [->|Hn]; simpl; [auto|].
  constructor; [|auto]. intros Hin. apply Hnotin.
  unfold Dict.keys, Dict.remove in Hin. apply in_map_iff in Hin.
  destruct Hin as [[k1 v1] [Hk Hf]]. apply filter_In in Hf.
  simpl in Hk. subst. destruct Hf as [Hf _].
  apply (in_map fst) in Hf. exact Hf.
Qed.

Lemma remove_absent k d : Dict.get k d = None -> Dict.remove k d = d.
Proof.
  induction d as [|[k0 v0] d IH]; simpl; [reflexivity|].
  destruct (eq_dec k k0) as [->|Hn]; [discriminate|].
  intros Hg. simpl. f_equal. auto.
Qed.
End DictFacts.

Lemma contains_remove_ne {V : Type} (k k' : string) (d : Dict.t string V) :
  k <> k' -> Dict.contains k' (Dict.remove k d) = Dict.contains k' d.
Proof. intros Hne. unfold Dict.contains. now rewrite get_remove_ne. Qed.

Lemma get_release c cs : forall d,
  Dict.get c (release cs d)
  = if in_dec eq_dec c cs then Some true else Dict.get c d.
Proof.
  induction cs as [|c0 cs IH]; intros d; simpl; [reflexivity|].
  unfold release in *. simpl. rewrite IH.
  destruct (in_dec eq_dec c cs) as [Hin|Hout].
  - destruct (eq_dec c0 c); reflexivity.
  - destruct (eq_dec c0 c) as [->|Hn].
    + apply get_set_eq.
    + now apply get_set_ne.
Qed.

Lemma keys_release cs : forall d,
  (forall c, In c cs -> In c (Dict.keys d)) ->
  Dict.keys (release cs d) = Dict.keys d.
Proof.
  induction cs as [|c0 cs IH]; intros d Hsub; [reflexivity|].
  unfold release in *. simpl.
  assert (Hk : Dict.keys (Dict.set c0 true d) = Dict.keys d)
    by (apply keys_set_in, Hsub; now left).
  rewrite IH; [exact Hk|]. intros c Hc. rewrite Hk. apply Hsub. now right.
Qed.

Lemma get_remove_all {V : Type} l ks : forall d : Dict.t string V,
  Dict.get l (remove_all ks d)
  = if in_dec eq_dec l ks then None else Dict.get l d.
Proof.
  induction ks as [|k ks IH]; intros d; simpl; [reflexivity|].
  unfold remove_all in *. simpl. rewrite IH.
  destruct (in_dec eq_dec l ks) as [Hin|Hout].
  - destruct (eq_dec k l); reflexivity.
  - destruct (eq_dec k l) as [->|Hn].
    + apply get_remove_eq.
    + now apply get_remove_ne.
Qed.

Lemma NoDup_keys_remove_all {V : Type} ks : forall d : Dict.t string V,
  NoDup (Dict.keys d) -> NoDup (Dict.keys (remove_all ks d)).
Proof.
  induction ks as [|k ks IH]; intros d Hnd; [exact Hnd|].
  unfold remove_all in *. simpl. apply IH. now apply NoDup_keys_remove.
Qed.

Lemma NoDup_keys_filter {K V : Type} (f : K * V -> bool) (d : list (K * V)) :
  NoDup (map fst d) -> NoDup (map fst (filter f d)).
Proof.
  induction d as [|kv d IH]; simpl; [auto|].
  intros Hnd. inversion Hnd as [|? ? Hnotin Hnd']; subst.
  destruct (f kv); simpl; [|auto].
  constructor; [|auto]. intros Hin. apply Hnotin.
  apply in_map_iff in Hin. destruct Hin as [x [Hx Hf]].
  apply filter_In in Hf. destruct Hf as [Hf _].
  rewrite <- Hx. now apply in_map.
Qed.

Lemma filter_nil {A : Type} (f : A -> bool) (l : list A) :
  (forall x, In x l -> f x = false) -> filter f l = [].
Proof.
  induction l as [|x l IH]; simpl; [reflexivity|].
  intros Hall. rewrite (Hall x) by now left. apply IH. intros y Hy.
  apply Hall. now right.
Qed.

(** Facts about [index]. *)

Lemma index_None {A : Type} `{EqDec A} (x : A) (l : list A) :
  index x l = None -> ~ In x l.
Proof.
  induction l as [|y l IH]; simpl; [tauto|].
  destruct (eq_dec x y) as [->|Hn]; [discriminate|].
  destruct (index x l); [discriminate|]. intros _ [He|Hi]; [congruence|].
  now apply IH.
Qed.

Lemma index_Some {A : Type} `{EqDec A} (x : A) (l : list A) : forall i,
  index x l = Some i ->
  nth_error l i = Some x
  /\ forall j, (j < i)%nat -> nth_error l j <> Some x.
Proof.
  induction l as [|y l IH]; simpl; [discriminate|].
  intros i. destruct (eq_dec x y) as [->|Hn].
  - intros Hi. inversion Hi; subst. split; [reflexivity|]. intros j Hj. lia.
  - destruct (index x l) as [i'|]; [|discriminate].
    intros Hi. inversion Hi; subst. destruct (IH i' eq_refl) as [Hnth Hlow].
    split; [exact Hnth|]. intros [|j] Hj; simpl.
    + congruence.
    + apply Hlow. lia.
Qed.

Lemma index_In {A : Type} `{EqDec A} (x : A) (l : list A) :
  In x l -> exists i, index x l = Some i.
Proof.
  intros Hin. destruct (index x l) as [i|] eqn:E; [eauto|].
  now apply index_None in E.
Qed.

Lemma nth_get {K V : Type} `{EqDec K} (d : Dict.t K V) i k v :
  NoDup (Dict.keys d) ->
  nth_error (Dict.keys d) i = Some k ->
  nth_error (Dict.values d) i = Some v ->
  Dict.get k d = Some v.
Proof.
  intros Hnd Hk Hv. unfold Dict.keys, Dict.values in *.
  rewrite nth_error_map in Hk, Hv.
  destruct (nth_error d i) as [[k0 v0]|] eqn:E; simpl in *; [|discriminate].
  inversion Hk; inversion Hv; subst. apply In_get; [exact Hnd|].
  eapply nth_error_In; eauto.
Qed.

(** Facts about the clock test. *)

Lemma Qgt_bool_true x y : Qgt_bool x y = true <-> y < x.
Proof.
  unfold Qgt_bool. rewrite negb_true_iff. split.
  - intros Hle. apply Qnot_le_lt. intros Hc.
    apply Qle_bool_iff in Hc. congruence.
  - intros Hlt. destruct (Qle_bool x y) eqn:E; [|reflexivity].
    apply Qle_bool_iff in E. exfalso. apply (Qlt_not_le _ _ Hlt E).
Qed.

Lemma Qgt_bool_false x y : Qgt_bool x y = false <-> x <= y.
Proof.
  unfold Qgt_bool. rewrite negb_false_iff. apply Qle_bool_iff.
Qed.

(** Facts about binary64 rounding. *)

Lemma round_half_even_bounds x :
  (Qfloor x <= round_half_even x <= Qfloor x + 1)%Z.
Proof.
  unfold round_half_even.
  destruct (Qcompare (x - inject_Z (Qfloor x)) (1 # 2)); [|lia|lia].
  destruct (Z.even (Qfloor x)); lia.
Qed.

Lemma round_half_even_le x K :
  x <= inject_Z K -> (round_half_even x <= K)%Z.
Proof.
  intros Hx. pose proof (Qfloor_le x) as Hf.
  assert (HfK : (Qfloor x <= K)%Z) by (rewrite Zle_Qle; lra).
  destruct (Z.eq_dec (Qfloor x) K) as [He|Hne].
  - unfold round_half_even. rewrite He in *.
    destruct (Qcompare_spec (x - inject_Z K) (1 # 2)) as [Heq|Hl|Hg];
      [lra|lia|lra].
  - pose proof (round_half_even_bounds x). lia.
Qed.

Lemma round_half_even_ge x K :
  inject_Z K <= x -> (K <= round_half_even x)%Z.
Proof.
  intros Hx. apply Qfloor_resp_le in Hx. rewrite Qfloor_Z in Hx.
  pose proof (round_half_even_bounds x). lia.
Qed.

Lemma round_half_even_gt x K :
  Z.even K = true ->
  (K < round_half_even x)%Z <-> inject_Z K + (1 # 2) < x.
Proof.
  intros Heven. pose proof (Qfloor_le x) as Hf. pose proof (Qlt_floor x) as Hf'.
  rewrite inject_Z_plus in Hf'. change (inject_Z 1) with 1 in Hf'.
  pose proof (round_half_even_bounds x) as Hb.
  destruct (Z_lt_le_dec (Qfloor x) K) as [Hlt|Hge].
  - (* floor below K: the rounded value is at most K *)
    split; [lia|]. intros Hx. exfalso.
    assert (Hle : (Qfloor x + 1 <= K)%Z) by lia.
    rewrite Zle_Qle, inject_Z_plus in Hle. change (inject_Z 1) with 1 in Hle.
    lra.
  - destruct (Z.eq_dec (Qfloor x) K) as [He|Hne].
    + unfold round_half_even in *. rewrite He in *.
      destruct (Qcompare_spec (x - inject_Z K) (1 # 2)) as [Heq|Hl|Hg].
      * rewrite Heven. split; [lia|]. intros Hx. lra.
      * split; [lia|]. intros Hx. lra.
      * split; [intros _; lra|lia].
    + assert (Hk : (K + 1 <= Qfloor x)%Z) by lia.
      rewrite Zle_Qle, inject_Z_plus in Hk. change (inject_Z 1) with 1 in Hk.
      split; [intros _; lra|lia].
Qed.

Lemma pow2_pos z : 0 < 2 ^ z.
Proof. apply Qpower_0_lt. reflexivity. Qed.

Lemma pow2_Z z : (0 <= z)%Z -> inject_Z (2 ^ z) == 2 ^ z.
Proof. intros Hz. now rewrite Zpower_Qpower. Qed.

Lemma Qdiv_lt_cross (a A : Z) (b B : Z) :
  (0 < b)%Z -> (0 < B)%Z -> (a * B < A * b)%Z ->
  inject_Z a / inject_Z b < inject_Z A / inject_Z B.
Proof.
  intros Hb HB Hlt.
  assert (Hb' : 0 < inject_Z b) by (unfold Qlt; simpl; lia).
  assert (HB' : 0 < inject_Z B) by (unfold Qlt; simpl; lia).
  apply Qlt_shift_div_l; [exact HB'|].
  unfold Qdiv. rewrite <- Qmult_assoc, (Qmult_comm (/ inject_Z b)), Qmult_assoc.
  apply Qlt_shift_div_r; [exact Hb'|].
  rewrite <- !inject_Z_mult, <- Zlt_Qlt. exact Hlt.
Qed.

Lemma binade_spec x :
  0 < x -> 2 ^ binade x <= x /\ x < 2 ^ (binade x + 1).
Proof.
  destruct x as [a b]. intros Hpos.
  assert (Ha : (0 < a)%Z).
  { unfold Qlt in Hpos. simpl in Hpos. lia. }
  unfold binade. simpl Qnum. simpl Qden.
  set (la := Z.log2 a). set (lb := Z.log2 (Z.pos b)).
  assert (Hla : (0 <= la)%Z) by apply Z.log2_nonneg.
  assert (Hlb : (0 <= lb)%Z) by apply Z.log2_nonneg.
  pose proof (Z.log2_spec a Ha) as [Ha1 Ha2]. fold la in Ha1, Ha2.
  pose proof (Z.log2_spec (Z.pos b) (Pos2Z.is_pos b)) as [Hb1 Hb2].
  fold lb in Hb1, Hb2.
  assert (Hpa : (0 < 2 ^ la)%Z) by (apply Z.pow_pos_nonneg; lia).
  assert (Hpb : (0 < 2 ^ lb)%Z) by (apply Z.pow_pos_nonneg; lia).
  assert (Hpa' : (0 < 2 ^ Z.succ la)%Z) by (apply Z.pow_pos_nonneg; lia).
  assert (Hpb' : (0 < 2 ^ Z.succ lb)%Z) by (apply Z.pow_pos_nonneg; lia).
  assert (Hne : ~ 2 == 0) by discriminate.
  assert (Hup : a # b < 2 ^ (la - lb + 1)).
  { replace (la - lb + 1)%Z with (Z.succ la - lb)%Z by lia.
    rewrite (Qpower_minus 2 (Z.succ la) lb Hne).
    rewrite <- (pow2_Z (Z.succ la)), <- (pow2_Z lb) by lia.
    rewrite Qmake_Qdiv. apply Qdiv_lt_cross; [lia|lia|nia]. }
  assert (Hlow : 2 ^ (la - lb - 1) < a # b).
  { replace (la - lb - 1)%Z with (la - Z.succ lb)%Z by lia.
    rewrite (Qpower_minus 2 la (Z.succ lb) Hne).
    rewrite <- (pow2_Z la), <- (pow2_Z (Z.succ lb)) by lia.
    rewrite Qmake_Qdiv. apply Qdiv_lt_cross; [lia|lia|nia]. }
  destruct (Qle_bool (2 ^ (la - lb)) (a # b)) eqn:E.
  - apply Qle_bool_iff in E. split; [exact E|exact Hup].
  - split; [apply Qlt_le_weak; exact Hlow|].
    replace (la - lb - 1 + 1)%Z with (la - lb)%Z by lia.
    apply Qnot_le_lt. intros Hc. apply Qle_bool_iff in Hc. congruence.
Qed.

Lemma pow2_cancel z : (0 <= z)%Z -> inject_Z (2 ^ z) * 2 ^ (- z) == 1.
Proof.
  intros Hz. rewrite (pow2_Z z Hz), <- Qpower_plus by discriminate.
  replace (z + - z)%Z with 0%Z by lia. reflexivity.
Qed.

Lemma round64_pos_nonneg x : 0 < x -> 0 <= round64_pos x.
Proof.
  intros Hx. unfold round64_pos.
  set (q := (Z.max (binade x) (-1022) - 52)%Z).
  pose proof (pow2_pos q) as Hp.
  apply Qmult_le_0_compat; [|lra].
  change 0 with (inject_Z 0). rewrite <- Zle_Qle.
  apply round_half_even_ge. apply Qle_shift_div_l; [exact Hp|].
  change (inject_Z 0) with 0. lra.
Qed.

Lemma round64_pos_gt_one x :
  0 < x -> (1 < round64_pos x <-> 1 + 2 ^ (-53) < x).
Proof.
  intros Hx. destruct (binade_spec x Hx) as [Hlo Hhi].
  unfold round64_pos. set (e := binade x) in *.
  set (q := (Z.max e (-1022) - 52)%Z).
  pose proof (pow2_pos q) as Hp.
  pose proof (pow2_pos (-53)) as Ht.
  assert (Ht1 : 2 ^ (-53) < 1).
  { change 1 with (2 ^ 0). apply Qpower_lt_compat_l; [lia|reflexivity]. }
  set (n := round_half_even (x / 2 ^ q)).
  destruct (Qlt_le_dec x 1) as [Hx1|Hx1].
  - (* below one *)
    assert (He : (e < 0)%Z).
    { apply (Qpower_lt_compat_l_inv 2); [|reflexivity].
      change (2 ^ 0) with 1. lra. }
    assert (Hq : (0 <= - q)%Z) by (unfold q; lia).
    pose proof (pow2_cancel (- q) Hq) as Hc.
    rewrite Z.opp_involutive in Hc.
    assert (Hn : (n <= 2 ^ (- q))%Z).
    { apply round_half_even_le. apply Qle_shift_div_r; [exact Hp|].
      rewrite Hc. lra. }
    rewrite Zle_Qle in Hn.
    assert (Hr : inject_Z n * 2 ^ q <= 1).
    { rewrite <- Hc. apply Qmult_le_compat_r; [exact Hn|lra]. }
    split; intros Hc'; lra.
  - destruct (Qlt_le_dec x 2) as [Hx2|Hx2].
    + (* the binade of one *)
      assert (He : e = 0%Z).
      { assert ((e < 1)%Z).
        { apply (Qpower_lt_compat_l_inv 2); [|reflexivity].
          change (2 ^ 1) with 2. lra. }
        assert ((0 < e + 1)%Z).
        { apply (Qpower_lt_compat_l_inv 2); [|reflexivity].
          change (2 ^ 0) with 1. lra. }
        lia. }
      assert (Hq : q = (- 52)%Z) by (unfold q; rewrite He; reflexivity).
      unfold n. clear n. rewrite Hq in *.
      set (n := round_half_even (x / 2 ^ (-52))).
      pose proof (pow2_cancel 52 ltac:(lia)) as Hc.
      assert (Hhalf : 2 ^ (-53) == (1 # 2) * 2 ^ (-52)) by reflexivity.
      pose proof (round_half_even_gt (x / 2 ^ (-52)) (2 ^ 52) eq_refl) as Hg.
      fold n in Hg. rewrite Zlt_Qlt in Hg.
      assert (H1 : 1 < inject_Z n * 2 ^ (-52) <-> inject_Z (2 ^ 52) < inject_Z n).
      { rewrite <- Hc at 1. apply Qmult_lt_r. exact Hp. }
      assert (H2 : inject_Z (2 ^ 52) + (1 # 2) < x / 2 ^ (-52)
                   <-> 1 + 2 ^ (-53) < x).
      { rewrite Hhalf, <- Hc.
        rewrite <- Qmult_plus_distr_l. split.
        - intros H. apply (Qmult_lt_r _ _ (2 ^ (-52)) Hp) in H.
          unfold Qdiv in H. rewrite <- Qmult_assoc in H.
          rewrite (Qmult_comm (/ 2 ^ (-52))), Qmult_inv_r, Qmult_1_r in H;
            [exact H|lra].
        - intros H. apply Qlt_shift_div_l; [exact Hp|exact H]. }
      rewrite H1, Hg, H2. reflexivity.
    + (* two and above *)
      assert (He : (1 <= e)%Z).
      { assert ((1 < e + 1)%Z); [|lia].
        apply (Qpower_lt_compat_l_inv 2); [|reflexivity].
        change (2 ^ 1) with 2. lra. }
      assert (Hq : q = (e - 52)%Z) by (unfold q; lia).
      assert (Hc : inject_Z (2 ^ 52) * 2 ^ q == 2 ^ e).
      { rewrite (pow2_Z 52) by lia. rewrite <- Qpower_plus by discriminate.
        rewrite Hq. replace (52 + (e - 52))%Z with e by lia. reflexivity. }
      assert (Hn : (2 ^ 52 <= n)%Z).
      { apply round_half_even_ge. apply Qle_shift_div_l; [exact Hp|].
        rewrite Hc. exact Hlo. }
      rewrite Zle_Qle in Hn.
      assert (He2 : 2 <= 2 ^ e).
      { change 2 with (2 ^ 1) at 1. apply Qpower_le_compat_l; [lia|discriminate]. }
      assert (Hr : 2 <= inject_Z n * 2 ^ q).
      { eapply Qle_trans; [exact He2|]. rewrite <- Hc.
        apply Qmult_le_compat_r; [exact Hn|lra]. }
      split; intros _; lra.
Qed.

Lemma round64_gt_one x : 1 < round64 x <-> 1 + 2 ^ (-53) < x.
Proof.
  pose proof (pow2_pos (-53)) as Ht. unfold round64.
  destruct (Qcompare_spec x 0) as [Hz|Hneg|Hpos].
  - split; intros H; lra.
  - assert (Hn : 0 < - x) by lra.
    pose proof (round64_pos_nonneg (- x) Hn). split; intros H'; lra.
  - now apply round64_pos_gt_one.
Qed.

(** The test of line 67 in exact terms: the computed age exceeds the
    timeout exactly when the exact age exceeds [1 + 2^(-53)], the midpoint
    between the timeout and the next float. *)
Lemma expired_iff t u :
  Qgt_bool (float_sub t u) TIMEOUT_SEC = true <-> 1 + 2 ^ (-53) < t - u.
Proof.
  rewrite Qgt_bool_true. unfold float_sub. rewrite <- round64_gt_one.
  assert (H1 : TIMEOUT_SEC == 1) by reflexivity. now rewrite H1.
Qed.

Lemma keep_le t u :
  t - u <= TIMEOUT_SEC -> Qgt_bool (float_sub t u) TIMEOUT_SEC = false.
Proof.
  intros Hle. destruct (Qgt_bool (float_sub t u) TIMEOUT_SEC) eqn:E;
    [|reflexivity].
  apply expired_iff in E. pose proof (pow2_pos (-53)) as Hp.
  assert (H1 : TIMEOUT_SEC == 1) by reflexivity. rewrite H1 in Hle. lra.
Qed.

Lemma expired_exact t u :
  Qgt_bool (float_sub t u) TIMEOUT_SEC = true -> TIMEOUT_SEC < t - u.
Proof.
  intros E. apply expired_iff in E. pose proof (pow2_pos (-53)) as Hp.
  assert (H1 : TIMEOUT_SEC == 1) by reflexivity. rewrite H1. lra.
Qed.

(** ** The two loops of the sweep *)

Lemma with_color_avaliable_id s : with_color_avaliable (_color_avaliable s) s = s.
Proof. destruct s; reflexivity. Qed.

Lemma mark_expired_spec t items : forall acc s,
  (forall kv, In kv (stale_items t items) -> exists c, assigned s (fst kv) c) ->
  exists cs,
    Forall2 (fun kv c => assigned s (fst kv) c) (stale_items t items) cs
    /\ mark_expired t items acc s
       = (Ok (acc ++ map fst (stale_items t items)),
          with_color_avaliable (release cs (_color_avaliable s)) s).
Proof.
  induction items as [|[l u] items IH]; intros acc s Hkeys; simpl.
  - exists []. split; [constructor|].
    rewrite app_nil_r. unfold release. simpl.
    now rewrite with_color_avaliable_id.
  - unfold stale_items in *. simpl in *.
    destruct (Qgt_bool (float_sub t u) TIMEOUT_SEC) eqn:E.
    + destruct (Hkeys (l, u)) as [c Hc]; [now left|]. simpl in Hc.
      unfold assigned in Hc. rewrite Hc.
      destruct (IH (acc ++ [l])
                  (with_color_avaliable (Dict.set c true (_color_avaliable s)) s))
        as [cs [Hcs Hrun]].
      { intros kv Hkv. apply Hkeys. now right. }
      exists (c :: cs). split; [constructor; assumption|].
      rewrite Hrun. simpl. rewrite <- app_assoc. reflexivity.
    + apply IH. exact Hkeys.
Qed.

Lemma delete_expired_spec : forall ex s,
  NoDup ex ->
  (forall l, In l ex ->
     Dict.contains l (_compound_last_used s) = true
     /\ Dict.contains l (_compound_to_color s) = true) ->
  delete_expired ex s
  = (Ok tt,
     with_compound_to_color (remove_all ex (_compound_to_color s))
       (with_compound_last_used (remove_all ex (_compound_last_used s)) s)).
Proof.
  induction ex as [|l ex IH]; intros s Hnd Hin; simpl.
  - destruct s; reflexivity.
  - inversion Hnd as [|? ? Hnotin Hnd']; subst.
    destruct (Hin l) as [Hlu Hcc]; [now left|].
    unfold Dict.del. rewrite Hlu. simpl. rewrite Hcc.
    rewrite IH; [reflexivity|exact Hnd'|].
    intros l' Hl'. simpl.
    assert (l <> l') by (intros ->; tauto).
    rewrite !contains_remove_ne by assumption. apply Hin. now right.
Qed.

Lemma Forall2_In_l {A B : Type} {R : A -> B -> Prop} {l1 l2 x} :
  Forall2 R l1 l2 -> In x l1 -> exists y, In y l2 /\ R x y.
Proof.
  induction 1 as [|a b l1 l2 Hab HF IH]; simpl; [tauto|].
  intros [<-|Hin]; [exists b; auto|].
  destruct (IH Hin) as [y [Hy HR]]. exists y. auto.
Qed.

Lemma Forall2_In_r {A B : Type} {R : A -> B -> Prop} {l1 l2 y} :
  Forall2 R l1 l2 -> In y l2 -> exists x, In x l1 /\ R x y.
Proof.
  induction 1 as [|a b l1 l2 Hab HF IH]; simpl; [tauto|].
  intros [<-|Hin]; [exists a; auto|].
  destruct (IH Hin) as [x [Hx HR]]. exists x. auto.
Qed.

Lemma stale_items_keys t s l :
  NoDup (Dict.keys (_compound_last_used s)) ->
  In l (map fst (stale_items t (_compound_last_used s))) <-> stale t s l = true.
Proof.
  intros Hnd. unfold stale, stale_items. split.
  - intros Hin. apply in_map_iff in Hin. destruct Hin as [[l' u] [Hl Hf]].
    simpl in Hl. subst l'. apply filter_In in Hf. destruct Hf as [Hin Hgt].
    rewrite (In_get _ _ _ Hnd Hin). exact Hgt.
  - destruct (Dict.get l (_compound_last_used s)) as [u|] eqn:E; [|discriminate].
    intros Hgt. apply get_Some_In in E. apply in_map_iff. exists (l, u).
    split; [reflexivity|]. apply filter_In. auto.
Qed.

Lemma filter_filter_andb {A : Type} (f g : A -> bool) (l : list A) :
  filter f (filter g l) = filter (fun x => g x && f x) l.
Proof.
  induction l as [|x l IH]; simpl; [reflexivity|].
  destruct (g x); simpl; [|exact IH]. destruct (f x); now rewrite IH.
Qed.

Lemma remove_all_filter {V : Type} ks : forall d : Dict.t string V,
  remove_all ks d
  = filter (fun kv => if in_dec eq_dec (fst kv) ks then false else true) d.
Proof.
  induction ks as [|k ks IH]; intros d.
  - simpl. induction d as [|kv d IHd]; simpl; [reflexivity|]. now f_equal.
  - unfold remove_all in *. simpl fold_left. rewrite IH. unfold Dict.remove.
    rewrite filter_filter_andb. apply filter_ext. intros [k' v]. simpl.
    destruct (eq_dec k k') as [->|Hn].
    + destruct (string_dec k' k'); [reflexivity|congruence].
    + destruct (string_dec k k'); [congruence|].
      destruct (in_dec eq_dec k' ks); reflexivity.
Qed.

Lemma sweep_ok t s :
  Inv s ->
  exists s1,
    get_compound_to_color_assignments t s = (Ok self_compound_to_color, s1)
    /\ swept t s s1 /\ Inv s1.
Proof.
  intros HI. destruct HI as [Hlu Hcc Hkeys Hlife Hun Hex].
  pose proof (stale_items_keys t s) as Hstale.
  set (items := stale_items t (_compound_last_used s)) in *.
  assert (Hlive : forall l, In l (map fst items) -> exists c, assigned s l c).
  { intros l Hl. apply contains_get. rewrite Hlife. apply contains_true_iff.
    apply in_map_iff in Hl. destruct Hl as [kv [<- Hf]].
    apply filter_In in Hf. destruct Hf as [Hf _]. now apply in_map. }
  destruct (@mark_expired_spec t (_compound_last_used s) [] s) as [cs [Hcs Hrun]].
  { intros kv Hkv. apply Hlive. now apply in_map. }
  fold items in Hcs, Hrun.
  assert (Hincs : forall c, In c cs <-> exists l, stale t s l = true /\ assigned s l c).
  { intros c. split.
    - intros Hc. destruct (Forall2_In_r Hcs Hc) as [kv [Hkv Ha]].
      exists (fst kv). split; [|exact Ha]. apply Hstale; [exact Hlu|].
      now apply in_map.
    - intros [l [Hl Ha]]. apply Hstale in Hl; [|exact Hlu].
      apply in_map_iff in Hl. destruct Hl as [kv [<- Hkv]].
      destruct (Forall2_In_l Hcs Hkv) as [c' [Hc' Ha']].
      unfold assigned in *. congruence. }
  unfold get_compound_to_color_assignments. rewrite Hrun. simpl.
  rewrite delete_expired_spec; simpl.
  2:{ apply NoDup_keys_filter. exact Hlu. }
  2:{ intros l Hl. split.
      - apply contains_true_iff. apply in_map_iff in Hl.
        destruct Hl as [kv [<- Hf]]. apply filter_In in Hf.
        destruct Hf as [Hf _]. now apply in_map.
      - apply contains_get. now apply Hlive. }
  eexists. split; [reflexivity|].
  assert (Hgl : forall (V : Type) (d : Dict.t string V) l,
            Dict.get l (remove_all (map fst items) d)
            = if stale t s l then None else Dict.get l d).
  { intros V d l. rewrite get_remove_all.
    destruct (in_dec eq_dec l (map fst items)) as [Hin|Hout].
    - apply Hstale in Hin; [|exact Hlu]. now rewrite Hin.
    - destruct (stale t s l) eqn:E; [|reflexivity].
      exfalso. apply Hout. now apply Hstale. }
  assert (Hsw : swept t s
            (with_compound_to_color (remove_all (map fst items) (_compound_to_color s))
               (with_compound_last_used
                  (remove_all (map fst items) (_compound_last_used s))
                  (with_color_avaliable (release cs (_color_avaliable s)) s)))).
  { constructor; simpl.
    - reflexivity.
    - intros l. apply Hgl.
    - intros l. apply Hgl.
    - intros c Hc. rewrite get_release.
      destruct (in_dec eq_dec c cs) as [Hin|Hout]; [reflexivity|].
      exfalso. apply Hout. now apply Hincs.
    - intros c Hc. rewrite get_release.
      destruct (in_dec eq_dec c cs) as [Hin|Hout]; [|reflexivity].
      apply Hincs in Hin. destruct Hin as [l [Hl Ha]].
      rewrite (Hc l Ha) in Hl. discriminate.
    - rewrite remove_all_filter. apply filter_ext. intros [l c]. simpl.
      destruct (in_dec eq_dec l (map fst items)) as [Hin|Hout].
      + apply Hstale in Hin; [|exact Hlu]. now rewrite Hin.
      + destruct (stale t s l) eqn:E; [|reflexivity].
        exfalso. apply Hout. now apply Hstale.
    - intros Hnone. assert (Hnil : items = []).
      { apply filter_nil. intros [l u] Hin.
        specialize (Hnone l). unfold stale in Hnone.
        now rewrite (In_get _ _ _ Hlu Hin) in Hnone. }
      assert (Hcsnil : cs = []) by (rewrite Hnil in Hcs; now inversion Hcs).
      rewrite Hnil, Hcsnil. destruct s; reflexivity. }
  split; [exact Hsw|].
  destruct Hsw as [_ Hslu Hscc Hrel Hkept _ _].
  constructor; simpl.
  - now apply NoDup_keys_remove_all.
  - now apply NoDup_keys_remove_all.
  - rewrite keys_release; [exact Hkeys|]. intros c Hc.
    apply Hincs in Hc. destruct Hc as [l [_ Ha]].
    apply contains_true_iff, contains_get. exists false. apply Hun. eauto.
  - intros l. unfold Dict.contains. rewrite !Hgl.
    destruct (stale t s l); [reflexivity|]. apply Hlife.
  - intros c. unfold assigned. simpl. split.
    + intros Hfalse.
      destruct (in_dec eq_dec c cs) as [Hin|Hout].
      * rewrite get_release in Hfalse.
        destruct (in_dec eq_dec c cs); [discriminate|tauto].
      * rewrite get_release in Hfalse.
        destruct (in_dec eq_dec c cs) as [|_]; [tauto|].
        apply Hun in Hfalse. destruct Hfalse as [l Ha]. exists l.
        rewrite Hgl. destruct (stale t s l) eqn:E; [|exact Ha].
        exfalso. apply Hout, Hincs. eauto.
    + intros [l Ha]. rewrite Hgl in Ha.
      destruct (stale t s l) eqn:E; [discriminate|].
      rewrite get_release. destruct (in_dec eq_dec c cs) as [Hin|Hout].
      * apply Hincs in Hin. destruct Hin as [l' [Hl' Ha']].
        assert (l' = l) by (eapply Hex; eauto). subst. congruence.
      * apply Hun. eauto.
  - intros l1 l2 c. unfold assigned. simpl. rewrite !Hgl.
    destruct (stale t s l1), (stale t s l2); try discriminate. apply Hex.
Qed.

Lemma NoDup_palette : NoDup _palette.
Proof.
  unfold _palette. repeat constructor; simpl; intuition discriminate.
Qed.

Lemma Inv_init palette : Inv (__init__ palette).
Proof.
  constructor; simpl.
  - constructor.
  - constructor.
  - reflexivity.
  - reflexivity.
  - intros c. unfold assigned. simpl. split.
    + intros Hc. exfalso. revert Hc. cbn.
      repeat (destruct (eq_dec c _); [discriminate|]). discriminate.
    + intros [l Hl]. discriminate.
  - intros l1 l2 c Hl. discriminate.
Qed.

Lemma Inv_refresh l t s :
  Inv s -> Dict.contains l (_compound_to_color s) = true -> Inv (refresh l t s).
Proof.
  intros [Hlu Hcc Hkeys Hlife Hun Hex] Hl. constructor; simpl; auto.
  - now apply NoDup_keys_set.
  - intros l'. rewrite contains_set. destruct (eq_dec l l') as [<-|Hn]; auto.
Qed.

Lemma Inv_allocate l t c s :
  Inv s ->
  Dict.get l (_compound_to_color s) = None ->
  Dict.get c (_color_avaliable s) = Some true ->
  Inv (allocate l t c s).
Proof.
  intros [Hlu Hcc Hkeys Hlife Hun Hex] Hl Hc.
  assert (Hfree : forall l', ~ assigned s l' c).
  { intros l' Ha. assert (Hf : Dict.get c (_color_avaliable s) = Some false)
      by (apply Hun; eauto). congruence. }
  constructor; simpl.
  - now apply NoDup_keys_set.
  - now apply NoDup_keys_set.
  - rewrite keys_set_in; [exact Hkeys|].
    apply contains_true_iff, contains_get. eauto.
  - intros l'. rewrite !contains_set. destruct (eq_dec l l'); auto.
  - intros c'. unfold assigned. simpl. destruct (eq_dec c c') as [<-|Hn].
    + rewrite get_set_eq. split; [intros _|reflexivity].
      exists l. apply get_set_eq.
    + rewrite get_set_ne by assumption. rewrite Hun. split.
      * intros [l' Ha]. exists l'. rewrite get_set_ne; [exact Ha|].
        intros <-. unfold assigned in Ha. congruence.
      * intros [l' Ha]. destruct (eq_dec l l') as [<-|Hn'].
        -- rewrite get_set_eq in Ha. congruence.
        -- rewrite get_set_ne in Ha by assumption. eauto.
  - intros l1 l2 c'. unfold assigned. simpl.
    intros H1 H2.
    destruct (eq_dec l l1) as [<-|Hn1], (eq_dec l l2) as [<-|Hn2]; auto.
    + rewrite get_set_eq in H1. rewrite get_set_ne in H2 by assumption.
      inversion H1; subst. exfalso. apply (Hfree l2 H2).
    + rewrite get_set_eq in H2. rewrite get_set_ne in H1 by assumption.
      inversion H2; subst. exfalso. apply (Hfree l1 H1).
    + rewrite get_set_ne in H1, H2 by assumption. eapply Hex; eauto.
Qed.

(** The slot [index] finds is the lowest available one, and the module's
    palette has its color at the same index. *)
Lemma first_available s i :
  Inv s ->
  index true (Dict.values (_color_avaliable s)) = Some i ->
  exists c, nth_error _palette i = Some c /\ lowest_available s c.
Proof.
  intros HI Hidx. apply index_Some in Hidx. destruct Hidx as [Hnth Hlow].
  pose proof (inv_avaliable_keys _ HI) as Hkeys.
  assert (Hnd : NoDup (Dict.keys (_color_avaliable s)))
    by (rewrite Hkeys; apply NoDup_palette).
  assert (Hk : forall j b, nth_error (Dict.values (_color_avaliable s)) j = Some b ->
               exists c, nth_error (Dict.keys (_color_avaliable s)) j = Some c).
  { intros j b. unfold Dict.keys, Dict.values. rewrite !nth_error_map.
    destruct (nth_error (_color_avaliable s) j) as [[c b']|]; [|discriminate].
    intros _. exists c. reflexivity. }
  destruct (Hk i true Hnth) as [c Hc]. exists c.
  split; [now rewrite <- Hkeys|]. exists i.
  split; [now rewrite <- Hkeys|].
  split; [apply (nth_get _ i); auto|].
  intros j c' Hj Hc'. rewrite <- Hkeys in Hc'.
  assert (Hv : exists b, nth_error (Dict.values (_color_avaliable s)) j = Some b).
  { unfold Dict.keys, Dict.values in *. rewrite nth_error_map in *.
    destruct (nth_error (_color_avaliable s) j) as [[c0 b]|]; [|discriminate].
    exists b. reflexivity. }
  destruct Hv as [[|] Hb]; [exfalso; now apply (Hlow j Hj)|].
  now apply (nth_get _ j).
Qed.

Lemma none_available s :
  Inv s ->
  index true (Dict.values (_color_avaliable s)) = None ->
  forall c, In c _palette -> Dict.get c (_color_avaliable s) = Some false.
Proof.
  intros HI Hidx c Hc. apply index_None in Hidx.
  rewrite <- (inv_avaliable_keys _ HI) in Hc.
  apply contains_true_iff, contains_get in Hc. destruct Hc as [[|] Hb]; auto.
  exfalso. apply Hidx. apply get_Some_In in Hb.
  apply (in_map snd) in Hb. exact Hb.
Qed.

(** Every outcome of [color_for_compound] on a state that satisfies the
    invariants: the sweep succeeds, and then the label is found, or no color
    is available, or the lowest available one is allocated. *)
Lemma color_for_cases t1 t2 l s :
  Inv s ->
  exists s1,
    get_compound_to_color_assignments t2 s = (Ok self_compound_to_color, s1)
    /\ swept t2 s s1 /\ Inv s1
    /\ ((exists c, assigned s1 l c
                   /\ color_for_compound t1 t2 l s = (Ok c, refresh l t1 s1))
        \/ (Dict.get l (_compound_to_color s1) = None
            /\ (forall c, In c _palette ->
                  Dict.get c (_color_avaliable s1) = Some false)
            /\ color_for_compound t1 t2 l s = (Raise NoAvailableColors, s1))
        \/ (Dict.get l (_compound_to_color s1) = None
            /\ exists c,
                 lowest_available s1 c
                 /\ color_for_compound t1 t2 l s = (Ok c, allocate l t1 c s1))).
Proof.
  intros HI. destruct (sweep_ok t2 s HI) as [s1 [Hget [Hsw HI1]]].
  exists s1. split; [exact Hget|]. split; [exact Hsw|]. split; [exact HI1|].
  unfold color_for_compound. rewrite Hget. simpl.
  unfold Dict.contains.
  destruct (Dict.get l (_compound_to_color s1)) as [c|] eqn:El.
  - left. exists c. split; [exact El|reflexivity].
  - right. destruct (index true (Dict.values (_color_avaliable s1))) as [i|] eqn:Ei.
    + right. split; [reflexivity|].
      destruct (first_available s1 i HI1 Ei) as [c [Hp Hc]].
      exists c. rewrite Hp. split; [exact Hc|reflexivity].
    + left. split; [reflexivity|]. split; [|reflexivity].
      now apply none_available.
Qed.

Lemma lowest_available_free s c :
  lowest_available s c -> Dict.get c (_color_avaliable s) = Some true.
Proof. intros [i [_ [Hc _]]]. exact Hc. Qed.

Lemma lowest_available_In s c : lowest_available s c -> In c _palette.
Proof. intros [i [Hi _]]. eapply nth_error_In; eauto. Qed.

Lemma color_for_Inv t1 t2 l s :
  Inv s -> Inv (snd (color_for_compound t1 t2 l s)).
Proof.
  intros HI. destruct (color_for_cases t1 t2 l s HI)
    as [s1 [_ [_ [HI1 [[c [Ha E]]|[[Hn [_ E]]|[Hn [c [Hc E]]]]]]]]];
    rewrite E; simpl.
  - apply Inv_refresh; [exact HI1|]. apply contains_get. eauto.
  - exact HI1.
  - apply Inv_allocate; auto. now apply lowest_available_free.
Qed.

Lemma get_assignments_Inv t s :
  Inv s -> Inv (snd (get_compound_to_color_assignments t s)).
Proof.
  intros HI. destruct (sweep_ok t s HI) as [s1 [E [_ HI1]]]. now rewrite E.
Qed.

Lemma do_call_Inv c s : Inv s -> Inv (snd (do_call c s)).
Proof.
  intros HI. destruct c as [t1 t2 l|t]; simpl.
  - pose proof (color_for_Inv t1 t2 l s HI) as H.
    destruct (color_for_compound t1 t2 l s) as [[col|e] s']; exact H.
  - pose proof (get_assignments_Inv t s HI) as H.
    destruct (get_compound_to_color_assignments t s) as [[r|e] s']; exact H.
Qed.

Lemma run_Inv calls : forall s, Inv s -> Inv (snd (run calls s)).
Proof.
  induction calls as [|c calls IH]; intros s HI; simpl; [exact HI|].
  pose proof (do_call_Inv c s HI) as H1.
  destruct (do_call c s) as [o s1]. simpl in H1.
  specialize (IH s1 H1). destruct (run calls s1) as [os s2]. exact IH.
Qed.

Lemma Inv_state_invariants s : Inv s -> state_invariants s.
Proof.
  intros [Hlu Hcc Hkeys Hlife Hun Hex]. repeat split.
  - now rewrite Hlife.
  - now rewrite Hlife.
  - intros Hf. apply Hun in Hf. destruct Hf as [l Ha]. exists l.
    split; [exact Ha|]. intros l' Ha'. eapply Hex; eauto.
  - intros [l [Ha _]]. apply Hun. eauto.
  - intros Ht l Ha. assert (Dict.get c (_color_avaliable s) = Some false)
      by (apply Hun; eauto). congruence.
  - intros Hnone. assert (Hin : In c (Dict.keys (_color_avaliable s)))
      by now rewrite Hkeys.
    apply contains_true_iff, contains_get in Hin. destruct Hin as [[|] Hb]; auto.
    apply Hun in Hb. destruct Hb as [l Ha]. exfalso. eapply Hnone; eauto.
  - exact Hex.
Qed.

(** ** Liveness of one label across a call *)

Lemma stale_le t s l u :
  Dict.get l (_compound_last_used s) = Some u ->
  t - u <= TIMEOUT_SEC -> stale t s l = false.
Proof. intros Hu Hle. unfold stale. rewrite Hu. now apply keep_le. Qed.

Lemma stale_gt t s l u :
  Dict.get l (_compound_last_used s) = Some u ->
  TIMEOUT_SEC < float_sub t u -> stale t s l = true.
Proof. intros Hu Hlt. unfold stale. rewrite Hu. now apply Qgt_bool_true. Qed.

Lemma stale_true_inv t s l :
  stale t s l = true ->
  exists u, Dict.get l (_compound_last_used s) = Some u /\ TIMEOUT_SEC < t - u.
Proof.
  unfold stale. destruct (Dict.get l (_compound_last_used s)) as [u|];
    [|discriminate].
  intros Hgt. exists u. split; [reflexivity|]. now apply expired_exact.
Qed.

(** A label that the sweep does not find stale keeps its color, its color
    stays unavailable, and its timestamp stays. *)
Lemma swept_live t s s1 m c :
  Inv s -> swept t s s1 -> assigned s m c -> stale t s m = false ->
  assigned s1 m c
  /\ Dict.get m (_compound_last_used s1) = Dict.get m (_compound_last_used s)
  /\ Dict.get c (_color_avaliable s1) = Some false.
Proof.
  intros HI Hsw Ha Hst. unfold assigned.
  rewrite (swept_to_color _ _ _ Hsw), (swept_last_used _ _ _ Hsw), Hst.
  split; [exact Ha|]. split; [reflexivity|].
  rewrite (swept_kept _ _ _ Hsw).
  - apply (inv_unavailable _ HI). eauto.
  - intros l Hl. now rewrite (inv_exclusive _ HI _ _ _ Hl Ha).
Qed.

(** A label that the sweep finds stale loses its entries and its color is
    marked available. *)
Lemma swept_stale t s s1 m c :
  swept t s s1 -> assigned s m c -> stale t s m = true ->
  Dict.get m (_compound_to_color s1) = None
  /\ Dict.get m (_compound_last_used s1) = None
  /\ Dict.get c (_color_avaliable s1) = Some true.
Proof.
  intros Hsw Ha Hst.
  rewrite (swept_to_color _ _ _ Hsw), (swept_last_used _ _ _ Hsw), Hst.
  split; [reflexivity|]. split; [reflexivity|].
  apply (swept_released _ _ _ Hsw). eauto.
Qed.

(** The frame of [color_for_compound l]: a label [m] that is not stale at the
    sweep keeps its color whatever the outcome; its timestamp moves only when
    [m] is the label looked up, and then the call returns its color. *)
Lemma color_for_live t1 t2 l s m c :
  Inv s -> assigned s m c -> stale t2 s m = false ->
  let rs := color_for_compound t1 t2 l s in
  assigned (snd rs) m c
  /\ Dict.get c (_color_avaliable (snd rs)) = Some false
  /\ Dict.get m (_compound_last_used (snd rs))
     = (if eq_dec l m then Some t1 else Dict.get m (_compound_last_used s))
  /\ (l = m -> fst rs = Ok c).
Proof.
  intros HI Ha Hst.
  destruct (color_for_cases t1 t2 l s HI)
    as [s1 [_ [Hsw [HI1 Hcases]]]].
  destruct (swept_live t2 s s1 m c HI Hsw Ha Hst) as [Ha1 [Hlu1 Hav1]].
  unfold assigned in *.
  destruct Hcases as [[c' [Hl E]]|[[Hn [_ E]]|[Hn [c' [Hc' E]]]]];
    [| |apply lowest_available_free in Hc']; rewrite E; simpl.
  - split; [exact Ha1|]. split; [exact Hav1|].
    destruct (eq_dec l m) as [->|Hne].
    + rewrite get_set_eq. split; [reflexivity|]. intros _.
      unfold assigned in Hl. congruence.
    + rewrite get_set_ne by assumption. split; [exact Hlu1|tauto].
  - split; [exact Ha1|]. split; [exact Hav1|].
    destruct (eq_dec l m) as [->|Hne]; [congruence|]. split; [exact Hlu1|tauto].
  - destruct (eq_dec l m) as [->|Hne]; [congruence|].
    rewrite !get_set_ne by congruence. tauto.
Qed.

Lemma assigned_In_palette s l c : Inv s -> assigned s l c -> In c _palette.
Proof.
  intros HI Ha. rewrite <- (inv_avaliable_keys _ HI).
  apply contains_true_iff, contains_get. exists false.
  apply (inv_unavailable _ HI). eauto.
Qed.

Lemma last_used_assigned s l u :
  Inv s -> Dict.get l (_compound_last_used s) = Some u -> exists c, assigned s l c.
Proof.
  intros HI Hu. apply contains_get. rewrite (inv_lifecycle _ HI).
  apply contains_get. eauto.
Qed.

(** When the sweep leaves no color available it has removed nothing. *)
Lemma sweep_exhausted_noop t s s1 :
  Inv s -> swept t s s1 ->
  (forall c, In c _palette -> Dict.get c (_color_avaliable s1) = Some false) ->
  s1 = s.
Proof.
  intros HI Hsw Hfull. apply (swept_noop _ _ _ Hsw). intros l.
  destruct (stale t s l) eqn:E; [|reflexivity]. exfalso.
  destruct (stale_true_inv _ _ _ E) as [u [Hu _]].
  destruct (last_used_assigned _ _ _ HI Hu) as [c Ha].
  destruct (swept_stale _ _ _ _ _ Hsw Ha E) as [_ [_ Hfree]].
  rewrite (Hfull c) in Hfree; [discriminate|].
  eapply assigned_In_palette; eauto.
Qed.

Lemma nodupb_sound {A : Type} `{EqDec A} (l : list A) :
  nodupb l = true -> NoDup l.
Proof.
  induction l as [|x l IH]; simpl; [constructor|].
  destruct (in_dec eq_dec x l) as [Hin|Hout]; [discriminate|].
  intros Hl. constructor; auto.
Qed.

Lemma NoDup_values_injective {K V : Type} (d : list (K * V)) : forall k1 k2 v,
  NoDup (map snd d) -> In (k1, v) d -> In (k2, v) d -> k1 = k2.
Proof.
  induction d as [|[k0 v0] d IH]; simpl; [tauto|].
  intros k1 k2 v Hnd H1 H2. inversion Hnd as [|? ? Hnotin Hnd']; subst.
  destruct H1 as [H1|H1], H2 as [H2|H2].
  - congruence.
  - inversion H1; subst. exfalso. apply Hnotin.
    apply (in_map snd) in H2. exact H2.
  - inversion H2; subst. exfalso. apply Hnotin.
    apply (in_map snd) in H1. exact H1.
  - eapply IH; eauto.
Qed.

Lemma Inv_check_sound s : Inv_check s = true -> Inv s.
Proof.
  unfold Inv_check. rewrite !andb_true_iff.
  intros [[[[[[[Hlu Hcc] Hkeys] Hsub1] Hsub2] Hvals] Hav] Hinj].
  apply nodupb_sound in Hlu, Hcc, Hinj.
  destruct (list_eq_dec eq_dec (Dict.keys (_color_avaliable s)) _palette)
    as [Hk|]; [|discriminate].
  rewrite forallb_forall in Hsub1, Hsub2, Hvals, Hav.
  assert (Hnd : NoDup (Dict.keys (_color_avaliable s)))
    by (rewrite Hk; apply NoDup_palette).
  constructor; auto.
  - intros l. destruct (Dict.contains l (_compound_to_color s)) eqn:E1.
    + symmetry. apply Hsub1. now apply contains_true_iff.
    + destruct (Dict.contains l (_compound_last_used s)) eqn:E2; [|reflexivity].
      rewrite <- E1. apply Hsub2. now apply contains_true_iff.
  - intros c. unfold assigned. split.
    + intros Hc. apply get_Some_In in Hc. specialize (Hav _ Hc). simpl in Hav.
      destruct (in_dec eq_dec c (Dict.values (_compound_to_color s)))
        as [Hin|]; [|discriminate].
      apply in_map_iff in Hin. destruct Hin as [[l c'] [Hc' Hin]].
      simpl in Hc'. subst c'. exists l. now apply In_get.
    + intros [l Hl]. apply get_Some_In in Hl.
      assert (Hin : In c (Dict.values (_compound_to_color s)))
        by (apply (in_map snd) in Hl; exact Hl).
      pose proof (Hvals c Hin) as Hc. apply contains_get in Hc.
      destruct Hc as [b Hb]. pose proof (get_Some_In _ _ _ Hb) as Hb'.
      specialize (Hav _ Hb'). simpl in Hav.
      destruct (in_dec eq_dec c (Dict.values (_compound_to_color s)));
        [|tauto].
      destruct b; [discriminate|exact Hb].
  - intros l1 l2 c H1 H2. unfold assigned in *.
    apply get_Some_In in H1, H2. eapply NoDup_values_injective; eauto.
Qed.

Lemma Inv_two_assigned : Inv two_assigned.
Proof. apply Inv_check_sound. vm_compute. reflexivity. Qed.

Lemma Inv_all_assigned : Inv all_assigned.
Proof. apply Inv_check_sound. vm_compute. reflexivity. Qed.

(** The only exception [color_for_compound] raises is [NoAvailableColors],
    and only for a label without an assignment after the sweep. *)
Lemma exhausted_palette_cases t1 t2 l s :
  Inv s -> forall e,
  fst (color_for_compound t1 t2 l s) = Raise e ->
  e = NoAvailableColors
  /\ Dict.contains l
       (_compound_to_color (snd (get_compound_to_color_assignments t2 s)))
     = false.
Proof.
  intros HI e Hraise.
  destruct (color_for_cases t1 t2 l s HI)
    as [s1 [Hget [_ [_ [[c [Hl E]]|[[Hn [_ E]]|[Hn [c [_ E]]]]]]]]];
    rewrite E in Hraise; simpl in Hraise; inversion Hraise; subst.
  rewrite Hget. simpl. unfold Dict.contains. rewrite Hn. auto.
Qed.

(** What a lookup of a label without a live assignment returns is the
    lowest available color of the swept state. *)
Lemma allocation_lowest t1 t2 l s c :
  Inv s ->
  Dict.contains l
    (_compound_to_color (snd (get_compound_to_color_assignments t2 s))) = false ->
  fst (color_for_compound t1 t2 l s) = Ok c ->
  lowest_available (snd (get_compound_to_color_assignments t2 s)) c.
Proof.
  intros HI Hnew Hc.
  destruct (color_for_cases t1 t2 l s HI)
    as [s1 [Hget [_ [_ Hcases]]]].
  rewrite Hget in *. simpl in Hnew. unfold Dict.contains in Hnew.
  destruct Hcases as [[c' [Ha E]]|[[_ [_ E]]|[_ [c' [Hlow E]]]]];
    rewrite E in Hc; simpl in Hc.
  - unfold assigned in Ha. now rewrite Ha in Hnew.
  - discriminate.
  - inversion Hc; subst. exact Hlow.
Qed.

(** ** The claims *)

(** C1. Every operation preserves the state invariants.  On a state that
    satisfies them ([Inv]: the three invariants of the data model, plus the
    facts that make the three tables dictionaries keyed as [__init__] keyed
    them), the state [color_for_compound] leaves and the state
    [get_compound_to_color_assignments] leaves satisfy them again, whatever
    the outcome of the call: a label has an assignment iff it has a
    timestamp, a palette color is unavailable iff exactly one label holds it
    and available iff none does, and no two labels share a color. *)
Theorem operations_preserve_invariants
    (s : ColorAssigner) (t1 t2 t : Q) (compound : string) :
  Inv s ->
  (Inv (snd (color_for_compound t1 t2 compound s))
   /\ state_invariants (snd (color_for_compound t1 t2 compound s)))
  /\ (Inv (snd (get_compound_to_color_assignments t s))
      /\ state_invariants (snd (get_compound_to_color_assignments t s))).
Proof.
  intros HI.
  pose proof (color_for_Inv t1 t2 compound s HI) as H1.
  pose proof (get_assignments_Inv t s HI) as H2.
  split; (split; [assumption|now apply Inv_state_invariants]).
Qed.

Lemma operations_preserve_invariants_witness :
  Inv (__init__ _palette)
  /\ state_invariants (snd (color_for_compound 0 0 "Ammoniak" (__init__ _palette)))
  /\ state_invariants (snd (get_compound_to_color_assignments 2 two_assigned)).
Proof.
  assert (H0 : Inv (__init__ _palette))
    by (apply Inv_check_sound; vm_compute; reflexivity).
  assert (H2 : Inv two_assigned)
    by (apply Inv_check_sound; vm_compute; reflexivity).
  split; [exact H0|]. split.
  - apply (operations_preserve_invariants (__init__ _palette) 0 0 0 "Ammoniak").
    exact H0.
  - apply (operations_preserve_invariants two_assigned 0 0 2 "Ammoniak").
    exact H2.
Defined.

(** C3. When the label has no live assignment after the sweep and every
    palette color is still held, [color_for_compound] raises
    [NoAvailableColors] and the state after the call is the state before
    it; this is the only way either method fails: any exception
    [color_for_compound] raises is that one, raised in that situation and
    without a change of state, and [get_compound_to_color_assignments]
    always returns. *)
Theorem exhausted_palette_no_mutation
    (s : ColorAssigner) (t1 t2 : Q) (compound : string) :
  Inv s ->
  let s1 := snd (get_compound_to_color_assignments t2 s) in
  (Dict.contains compound (_compound_to_color s1) = false ->
   (forall c, In c _palette -> exists l, assigned s1 l c) ->
   color_for_compound t1 t2 compound s = (Raise NoAvailableColors, s))
  /\ (forall e s', color_for_compound t1 t2 compound s = (Raise e, s') ->
        e = NoAvailableColors /\ s' = s
        /\ Dict.contains compound (_compound_to_color s1) = false
        /\ forall c, In c _palette -> exists l, assigned s1 l c)
  /\ (forall t, exists s',
        get_compound_to_color_assignments t s = (Ok self_compound_to_color, s')).
Proof.
  intros HI s1.
  destruct (color_for_cases t1 t2 compound s HI)
    as [s1' [Hget [Hsw [HI1 Hcases]]]].
  assert (Hs1 : s1 = s1') by (unfold s1; now rewrite Hget). rewrite Hs1.
  clear s1 Hs1. split; [|split].
  - intros Hnot Hheld.
    destruct Hcases as [[c [Hl E]]|[[Hn [Hfull E]]|[Hn [c [Hc E]]]]].
    + unfold Dict.contains, assigned in *. now rewrite Hl in Hnot.
    + rewrite E. f_equal. eapply sweep_exhausted_noop; eauto.
    + exfalso. destruct (Hheld c (lowest_available_In _ _ Hc)) as [l Ha].
      apply lowest_available_free in Hc.
      assert (Dict.get c (_color_avaliable s1') = Some false)
        by (apply (inv_unavailable _ HI1); eauto).
      congruence.
  - intros e s' Hraise.
    destruct Hcases as [[c [Hl E]]|[[Hn [Hfull E]]|[Hn [c [Hc E]]]]];
      rewrite E in Hraise; inversion Hraise; subst.
    assert (s' = s) by (eapply sweep_exhausted_noop; eauto). subst s'.
    split; [reflexivity|]. split; [reflexivity|].
    split; [unfold Dict.contains; now rewrite Hn|].
    intros c Hc. apply (inv_unavailable _ HI1). auto.
  - intros t. destruct (sweep_ok t s HI) as [s' [E _]]. eauto.
Qed.

Lemma exhausted_palette_no_mutation_witness :
  color_for_compound 0.5 0.5 "Methanol" all_assigned
  = (Raise NoAvailableColors, all_assigned).
Proof.
  apply (exhausted_palette_no_mutation all_assigned 0.5 0.5 "Methanol").
  - apply Inv_check_sound. vm_compute. reflexivity.
  - vm_compute. reflexivity.
  - intros c Hc. simpl in Hc.
    destruct Hc as [<-|[<-|[<-|[<-|[<-|[]]]]]];
      [exists "Ammoniak"|exists "Benzol"|exists "Aceton"
      |exists "Kohlenmonoxid"|exists "Chloroform"];
      vm_compute; reflexivity.
Defined.

Lemma do_call_live cl s L c u :
  Inv s -> assigned s L c ->
  Dict.get L (_compound_last_used s) = Some u ->
  kept_fresh L u [cl] ->
  answers L c cl (fst (do_call cl s))
  /\ assigned (snd (do_call cl s)) L c
  /\ exists u', Dict.get L (_compound_last_used (snd (do_call cl s))) = Some u'
                /\ forall rest, kept_fresh L u (cl :: rest) -> kept_fresh L u' rest.
Proof.
  intros HI Ha Hu Hfresh. destruct cl as [t1 t2 l|t]; simpl in *.
  - destruct Hfresh as [Hle _].
    pose proof (color_for_live t1 t2 l s L c HI Ha (stale_le _ _ _ _ Hu Hle))
      as [Ha' [_ [Hu' Hret]]].
    simpl in Hu'. rewrite Hu in Hu'.
    destruct (color_for_compound t1 t2 l s) as [[col|e] s']; simpl in *;
      (split; [intros He; specialize (Hret He); congruence|]);
      (split; [exact Ha'|]);
      destruct (eq_dec l L); eexists; (split; [exact Hu'|]);
      intros rest [_ Hk]; exact Hk.
  - destruct Hfresh as [Hle _].
    destruct (sweep_ok t s HI) as [s1 [E [Hsw _]]]. rewrite E. simpl.
    destruct (swept_live t s s1 L c HI Hsw Ha (stale_le _ _ _ _ Hu Hle))
      as [Ha1 [Hlu1 _]].
    split; [eexists; split; [reflexivity|exact Ha1]|].
    split; [exact Ha1|]. exists u. split; [congruence|tauto].
Qed.

Lemma run_live calls : forall s L c u,
  Inv s -> assigned s L c ->
  Dict.get L (_compound_last_used s) = Some u ->
  kept_fresh L u calls ->
  Forall2 (answers L c) calls (fst (run calls s))
  /\ assigned (snd (run calls s)) L c.
Proof.
  induction calls as [|cl calls IH]; intros s L c u HI Ha Hu Hfresh; simpl.
  - split; [constructor|exact Ha].
  - assert (Hone : kept_fresh L u [cl])
      by (destruct cl; simpl in *; tauto).
    destruct (do_call_live cl s L c u HI Ha Hu Hone)
      as [Hans [Ha' [u' [Hu' Hrest]]]].
    pose proof (do_call_Inv cl s HI) as HI'.
    destruct (do_call cl s) as [o s1]. simpl in *.
    destruct (IH s1 L c u' HI' Ha' Hu' (Hrest calls Hfresh)) as [HF Hfin].
    destruct (run calls s1) as [os s2]. simpl in *.
    split; [constructor; assumption|exact Hfin].
Qed.

(** C5. A lookup of a label [L] made within the timeout of its last use
    returns the color [L] has and sets its timestamp to the reading the call
    took; hence over any sequence of calls, of either method and for any
    labels, in which every sweep falls within the timeout of the latest
    lookup of [L], every lookup of [L] returns that same color, every
    dictionary handed out binds [L] to it, and [L] is still bound to it at
    the end. *)
Theorem live_label_keeps_color
    (s : ColorAssigner) (L : string) (c : color) (u t1 t2 : Q) :
  Inv s -> assigned s L c ->
  Dict.get L (_compound_last_used s) = Some u ->
  (t2 - u <= TIMEOUT_SEC ->
   fst (color_for_compound t1 t2 L s) = Ok c
   /\ assigned (snd (color_for_compound t1 t2 L s)) L c
   /\ Dict.get L (_compound_last_used (snd (color_for_compound t1 t2 L s)))
      = Some t1)
  /\ (forall calls, kept_fresh L u calls ->
        Forall2 (answers L c) calls (fst (run calls s))
        /\ assigned (snd (run calls s)) L c).
Proof.
  intros HI Ha Hu. split.
  - intros Hle.
    pose proof (color_for_live t1 t2 L s L c HI Ha (stale_le _ _ _ _ Hu Hle))
      as [Ha' [_ [Hu' Hret]]].
    simpl in *. destruct (eq_dec L L); [|congruence]. auto.
  - intros calls Hfresh. eapply run_live; eauto.
Qed.

Lemma live_label_keeps_color_witness :
  fst (color_for_compound 0.7 0.7 "Benzol" two_assigned) = Ok (0.54, 0.16, 0.8)
  /\ Forall2 (answers "Benzol" (0.54, 0.16, 0.8))
       [Color_for 0.7 0.7 "Benzol"; Assignments 1.4; Color_for 1.4 1.4 "Benzol";
        Color_for 1.4 1.4 "Aceton"; Color_for 2.1 2.1 "Benzol"]
       (fst (run [Color_for 0.7 0.7 "Benzol"; Assignments 1.4;
                  Color_for 1.4 1.4 "Benzol"; Color_for 1.4 1.4 "Aceton";
                  Color_for 2.1 2.1 "Benzol"] two_assigned)).
Proof.
  assert (Ha : assigned two_assigned "Benzol" (0.54, 0.16, 0.8))
    by (vm_compute; reflexivity).
  assert (Hu : Dict.get "Benzol" (_compound_last_used two_assigned) = Some 0)
    by (vm_compute; reflexivity).
  destruct (live_label_keeps_color two_assigned "Benzol" (0.54, 0.16, 0.8)
              0 0.7 0.7 Inv_two_assigned Ha Hu) as [Hone Hmany].
  split.
  - apply Hone. vm_compute. discriminate.
  - apply Hmany. simpl. repeat split; vm_compute; discriminate.
Defined.



(** C9. A call [color_for_compound L] leaves every other label that is not
    expired at the sweep as it was: its color, its timestamp and the
    availability of its color are those of the state before the call,
    whatever the call's outcome (a returned existing color, a new
    allocation, or the exhaustion error). *)
Theorem color_for_frames_other_labels
    (s : ColorAssigner) (L M : string) (c : color) (u t1 t2 : Q) :
  Inv s -> M <> L -> assigned s M c ->
  Dict.get M (_compound_last_used s) = Some u ->
  t2 - u <= TIMEOUT_SEC ->
  let s' := snd (color_for_compound t1 t2 L s) in
  assigned s' M c
  /\ Dict.get M (_compound_last_used s') = Some u
  /\ Dict.get c (_color_avaliable s') = Dict.get c (_color_avaliable s).
Proof.
  intros HI Hne Ha Hu Hle s'.
  pose proof (color_for_live t1 t2 L s M c HI Ha (stale_le _ _ _ _ Hu Hle))
    as [Ha' [Hav' [Hu' _]]].
  simpl in Hu'. destruct (eq_dec L M); [congruence|].
  split; [exact Ha'|]. split; [unfold s'; congruence|].
  unfold s'. rewrite Hav'. symmetry. apply (inv_unavailable _ HI). eauto.
Qed.

Lemma color_for_frames_other_labels_witness :
  (let s' := snd (color_for_compound 0.5 0.5 "Aceton" two_assigned) in
   assigned s' "Benzol" (0.54, 0.16, 0.8)
   /\ Dict.get "Benzol" (_compound_last_used s') = Some 0
   /\ Dict.get (0.54, 0.16, 0.8) (_color_avaliable s')
      = Dict.get (0.54, 0.16, 0.8) (_color_avaliable two_assigned))
  /\ (let s' := snd (color_for_compound 0.5 0.5 "Methanol" all_assigned) in
      assigned s' "Benzol" (0.54, 0.16, 0.8)
      /\ Dict.get "Benzol" (_compound_last_used s') = Some 0
      /\ Dict.get (0.54, 0.16, 0.8) (_color_avaliable s')
         = Dict.get (0.54, 0.16, 0.8) (_color_avaliable all_assigned)).
Proof.
  split.
  - apply (color_for_frames_other_labels two_assigned "Aceton" "Benzol"
             (0.54, 0.16, 0.8) 0 0.5 0.5).
    + apply Inv_check_sound. vm_compute. reflexivity.
    + discriminate.
    + vm_compute. reflexivity.
    + vm_compute. reflexivity.
    + vm_compute. discriminate.
  - apply (color_for_frames_other_labels all_assigned "Methanol" "Benzol"
             (0.54, 0.16, 0.8) 0 0.5 0.5).
    + apply Inv_check_sound. vm_compute. reflexivity.
    + discriminate.
    + vm_compute. reflexivity.
    + vm_compute. reflexivity.
    + vm_compute. discriminate.
Defined.

(** C10. A lookup of a label that has a live assignment at the sweep never
    raises: it returns the label's color, also when every palette color is
    held; when [color_for_compound] raises [NoAvailableColors] the label had
    no assignment after the sweep. *)
Theorem live_label_never_exhausts
    (s : ColorAssigner) (L : string) (c : color) (u t1 t2 : Q) :
  Inv s -> assigned s L c ->
  Dict.get L (_compound_last_used s) = Some u ->
  t2 - u <= TIMEOUT_SEC ->
  fst (color_for_compound t1 t2 L s) = Ok c
  /\ forall l e, fst (color_for_compound t1 t2 l s) = Raise e ->
       e = NoAvailableColors
       /\ Dict.contains l
            (_compound_to_color (snd (get_compound_to_color_assignments t2 s)))
          = false.
Proof.
  intros HI Ha Hu Hle. split.
  - pose proof (color_for_live t1 t2 L s L c HI Ha (stale_le _ _ _ _ Hu Hle))
      as [_ [_ [_ Hret]]].
    now apply Hret.
  - intros l e Hraise.
    destruct (exhausted_palette_cases t1 t2 l s HI e) as [He Hc]; auto.
Qed.

Lemma live_label_never_exhausts_witness :
  fst (color_for_compound 0.5 0.5 "Benzol" all_assigned) = Ok (0.54, 0.16, 0.8).
Proof.
  apply (live_label_never_exhausts all_assigned "Benzol" (0.54, 0.16, 0.8) 0 0.5 0.5).
  - apply Inv_check_sound. vm_compute. reflexivity.
  - vm_compute. reflexivity.
  - vm_compute. reflexivity.
  - vm_compute. discriminate.
Defined.



(** C7, as the claim states it, fails: what the getter returns is no
    snapshot.  It is the assigner's own table, and the next call changes
    what the holder of the returned dictionary sees. *)
Lemma returned_dictionary_is_no_snapshot :
  ~ (forall (s : ColorAssigner) (t : Q) (r : dict_ref) (s1 : ColorAssigner)
            (cl : call),
       Inv s ->
       get_compound_to_color_assignments t s = (Ok r, s1) ->
       deref (snd (do_call cl s1)) r = deref s1 r).
Proof.
  intros Hclaim.
  specialize (Hclaim (__init__ _palette) 0 self_compound_to_color
                (__init__ _palette) (Color_for 0 0 "Ammoniak")
                (Inv_init _palette) eq_refl).
  vm_compute in Hclaim. discriminate.
Qed.

(** C7, amended.  [get_compound_to_color_assignments] always returns, and
    what it returns is the assigner's assignment table itself, in whatever
    state the assigner is later.  At the return that table holds exactly the
    pairs whose label the test of line 67 does not find older than the
    timeout at the call's clock reading, in their insertion order; a label
    that the test finds older is not in it and its color has been marked
    available; and the sweep is the one [color_for_compound] makes: a
    lookup with the same clock reading for the sweep decides on the returned
    dictionary and continues from the very state this call leaves. *)
Theorem current_assignments_are_live
    (s : ColorAssigner) (t : Q) :
  Inv s ->
  exists r s1,
    get_compound_to_color_assignments t s = (Ok r, s1)
    /\ (forall s', deref s' r = _compound_to_color s')
    /\ deref s1 r
       = filter (fun kv => negb (stale t s (fst kv))) (_compound_to_color s)
    /\ (forall l c, Dict.get l (deref s1 r) = Some c
                    <-> assigned s l c /\ stale t s l = false)
    /\ (forall l u c, Dict.get l (_compound_last_used s) = Some u ->
          TIMEOUT_SEC < float_sub t u -> assigned s l c ->
          Dict.get l (deref s1 r) = None
          /\ Dict.get c (_color_avaliable s1) = Some true)
    /\ (forall t1 l c, Dict.get l (deref s1 r) = Some c ->
          color_for_compound t1 t l s = (Ok c, refresh l t1 s1))
    /\ (forall t1 l, Dict.get l (deref s1 r) = None ->
          color_for_compound t1 t l s = (Raise NoAvailableColors, s1)
          \/ exists c, lowest_available s1 c
               /\ color_for_compound t1 t l s = (Ok c, allocate l t1 c s1)).
Proof.
  intros HI. destruct (sweep_ok t s HI) as [s1 [E [Hsw HI1]]].
  exists self_compound_to_color, s1. simpl.
  split; [exact E|]. split; [reflexivity|].
  split; [apply (swept_items _ _ _ Hsw)|].
  assert (Hcases : forall t1 l,
            (exists c, assigned s1 l c
                       /\ color_for_compound t1 t l s = (Ok c, refresh l t1 s1))
            \/ (Dict.get l (_compound_to_color s1) = None
                /\ (color_for_compound t1 t l s = (Raise NoAvailableColors, s1)
                    \/ exists c, lowest_available s1 c
                         /\ color_for_compound t1 t l s
                            = (Ok c, allocate l t1 c s1)))).
  { intros t1 l. destruct (color_for_cases t1 t l s HI)
      as [s1' [E' [_ [_ Hc]]]].
    assert (s1' = s1) by congruence. subst s1'.
    destruct Hc as [Hf|[[Hn [_ Hr]]|[Hn Ha]]]; [now left|right|right]; tauto. }
  split; [|split; [|split]].
  - intros l c. rewrite (swept_to_color _ _ _ Hsw). unfold assigned.
    destruct (stale t s l); split; try tauto; try discriminate.
    intros [_ Hd]. discriminate.
  - intros l u c Hu Hlt Ha.
    destruct (swept_stale t s s1 l c Hsw Ha (stale_gt _ _ _ _ Hu Hlt)); tauto.
  - intros t1 l c Hl. destruct (Hcases t1 l) as [[c' [Ha Hr]]|[Hn _]];
      unfold assigned in *; congruence.
  - intros t1 l Hl. destruct (Hcases t1 l) as [[c' [Ha Hr]]|[_ Hr]];
      unfold assigned in *; [congruence|exact Hr].
Qed.

Lemma current_assignments_are_live_witness :
  exists r s1,
    get_compound_to_color_assignments 0.7 two_assigned = (Ok r, s1)
    /\ deref s1 r
       = [("Ammoniak", (0.9, 0.0, 0.04)); ("Benzol", (0.54, 0.16, 0.8))].
Proof.
  destruct (current_assignments_are_live two_assigned 0.7 Inv_two_assigned)
    as [r [s1 [E [_ [Hd _]]]]].
  exists r, s1. split; [exact E|]. rewrite Hd. vm_compute. reflexivity.
Defined.

(** ** Allocation order *)

Lemma filled_init palette : filled 0 (__init__ palette).
Proof.
  intros i c Hi.
  destruct i as [|[|[|[|[|i]]]]]; simpl in Hi;
    try (inversion Hi; subst; vm_compute; reflexivity).
  destruct i; discriminate.
Qed.

Lemma lowest_available_unique s c c' :
  lowest_available s c -> lowest_available s c' -> c = c'.
Proof.
  intros [i [Hi [Hc Hlow]]] [i' [Hi' [Hc' Hlow']]].
  destruct (Nat.lt_trichotomy i i') as [Hlt|[->|Hgt]].
  - rewrite (Hlow' i c Hlt Hi) in Hc. discriminate.
  - congruence.
  - rewrite (Hlow i' c' Hgt Hi') in Hc'. discriminate.
Qed.

Lemma filled_lowest k s c :
  filled k s -> (k < List.length _palette)%nat -> lowest_available s c ->
  nth_error _palette k = Some c.
Proof.
  intros Hf Hk [i [Hi [Hc Hlow]]].
  destruct (nth_error _palette k) as [ck|] eqn:Ek;
    [|apply nth_error_None in Ek; lia].
  pose proof (Hf k ck Ek) as Hck. rewrite Nat.leb_refl in Hck.
  pose proof (Hf i c Hi) as Hci. rewrite Hc in Hci.
  assert (Hle : (k <= i)%nat)
    by (apply Nat.leb_le; congruence).
  destruct (Nat.eq_dec k i) as [->|Hne]; [congruence|].
  rewrite (Hlow k ck) in Hck; [discriminate|lia|exact Ek].
Qed.

Lemma allocate_avaliable l t c s :
  _color_avaliable (allocate l t c s) = Dict.set c false (_color_avaliable s).
Proof. reflexivity. Qed.

Lemma allocate_last_used l t c s :
  _compound_last_used (allocate l t c s)
  = Dict.set l t (_compound_last_used s).
Proof. reflexivity. Qed.

Lemma allocate_to_color l t c s :
  _compound_to_color (allocate l t c s)
  = Dict.set l c (_compound_to_color s).
Proof. reflexivity. Qed.

Lemma fresh_step k earlier seen s t1 t2 l :
  Inv s -> filled k s ->
  (forall l' u, Dict.get l' (_compound_last_used s) = Some u -> In u earlier) ->
  (forall l' c, assigned s l' c -> In l' seen) ->
  ~ In l seen ->
  Forall (fun u => t2 - u <= TIMEOUT_SEC) earlier ->
  (k < List.length _palette)%nat ->
  exists c,
    nth_error _palette k = Some c
    /\ color_for_compound t1 t2 l s = (Ok c, allocate l t1 c s)
    /\ filled (S k) (allocate l t1 c s)
    /\ (forall l' u, Dict.get l' (_compound_last_used (allocate l t1 c s)) = Some u ->
          In u (t1 :: earlier))
    /\ (forall l' c', assigned (allocate l t1 c s) l' c' -> In l' (l :: seen)).
Proof.
  intros HI Hf Hts Hseen Hnew Hfresh Hk.
  destruct (color_for_cases t1 t2 l s HI) as [s1 [_ [Hsw [_ Hcases]]]].
  assert (s1 = s).
  { apply (swept_noop _ _ _ Hsw). intros l'. unfold stale.
    destruct (Dict.get l' (_compound_last_used s)) as [u|] eqn:E; [|reflexivity].
    apply keep_le. rewrite Forall_forall in Hfresh. eauto. }
  subst s1.
  destruct (nth_error _palette k) as [ck|] eqn:Ek;
    [|apply nth_error_None in Ek; lia].
  pose proof (Hf k ck Ek) as Hck. rewrite Nat.leb_refl in Hck.
  destruct Hcases as [[c [Ha _]]|[[_ [Hfull _]]|[_ [c [Hlow E]]]]].
  - exfalso. eauto.
  - rewrite (Hfull ck) in Hck; [discriminate|]. eapply nth_error_In; eauto.
  - pose proof (filled_lowest k s c Hf Hk Hlow) as Hc.
    assert (c = ck) by congruence. subst ck. exists c.
    split; [reflexivity|]. split; [exact E|]. split; [|split].
    + intros i c' Hi. rewrite allocate_avaliable.
      destruct (eq_dec c c') as [<-|Hne].
      * rewrite get_set_eq.
        assert (i = k).
        { apply (proj1 (NoDup_nth_error _palette) NoDup_palette);
            [apply nth_error_Some; congruence|congruence]. }
        subst i. f_equal. symmetry. apply Nat.leb_gt. lia.
      * rewrite get_set_ne by assumption. rewrite (Hf i c' Hi). f_equal.
        assert (i <> k) by (intros ->; congruence).
        destruct (Nat.leb_spec k i), (Nat.leb_spec (S k) i); auto; lia.
    + intros l' u. rewrite allocate_last_used.
      destruct (eq_dec l l') as [<-|Hne].
      * rewrite get_set_eq. intros Hu. left. congruence.
      * rewrite get_set_ne by assumption. intros Hu. right. eauto.
    + intros l' c'. unfold assigned. rewrite allocate_to_color.
      destruct (eq_dec l l') as [<-|Hne].
      * intros _. now left.
      * rewrite get_set_ne by assumption. intros Ha. right. eauto.
Qed.

Lemma skipn_nth {A : Type} (l : list A) : forall k x,
  nth_error l k = Some x -> skipn k l = x :: skipn (S k) l.
Proof.
  induction l as [|y l IH]; intros [|k] x; simpl; try discriminate.
  - intros Hx. congruence.
  - intros Hx. now apply IH.
Qed.

Lemma fresh_run cs : forall k earlier seen s,
  Inv s -> filled k s ->
  (forall l' u, Dict.get l' (_compound_last_used s) = Some u -> In u earlier) ->
  (forall l' c, assigned s l' c -> In l' seen) ->
  NoDup (map snd cs) ->
  (forall l, In l (map snd cs) -> ~ In l seen) ->
  no_expiry earlier cs ->
  (k + List.length cs <= List.length _palette)%nat ->
  fst (run (lookups cs) s)
  = map Returned_color (firstn (List.length cs) (skipn k _palette)).
Proof.
  induction cs as [|[[t1 t2] l] cs IH];
    intros k earlier seen s HI Hf Hts Hseen Hnd Hnew Hfresh Hk; [reflexivity|].
  simpl in Hnd, Hfresh. cbn [List.length] in Hk.
  inversion Hnd as [|? ? Hnotin Hnd']; subst.
  destruct Hfresh as [Hnow Hlater].
  destruct (fresh_step k earlier seen s t1 t2 l HI Hf Hts Hseen)
    as [c [Hc [E [Hf' [Hts' Hseen']]]]]; auto; [apply Hnew; now left|lia|].
  pose proof (color_for_Inv t1 t2 l s HI) as HI'. rewrite E in HI'.
  cbn [snd] in HI'.
  assert (Hrest : fst (run (lookups cs) (allocate l t1 c s))
                  = map Returned_color
                      (firstn (List.length cs) (skipn (S k) _palette))).
  { apply (IH (S k) (t1 :: earlier) (l :: seen)); auto; [|lia].
    intros l' Hl' [<-|Hin]; [tauto|]. apply (Hnew l'); [now right|exact Hin]. }
  cbn [lookups map run do_call fst snd List.length]. rewrite E.
  fold (lookups cs).
  destruct (run (lookups cs) (allocate l t1 c s)) as [os s2].
  cbn [fst] in *. rewrite (skipn_nth _ _ _ Hc). cbn [firstn map].
  now rewrite Hrest.
Qed.

(** C2. On a new assigner, [k] lookups of distinct labels, [k] at most the
    size of the palette, during which nothing expires, return the first [k]
    colors of the palette in its order.  In general a lookup of a label
    without a live assignment returns a color exactly when that color is
    the lowest-index one the swept availability table marks available, which
    determines it. *)
Theorem allocation_in_palette_order
    (palette : list color) (cs : list (Q * Q * string))
    (s : ColorAssigner) (t1 t2 : Q) (l : string) :
  (NoDup (map snd cs) ->
   (List.length cs <= List.length _palette)%nat ->
   no_expiry [] cs ->
   fst (run (lookups cs) (__init__ palette))
   = map Returned_color (firstn (List.length cs) _palette))
  /\ (Inv s ->
      let s1 := snd (get_compound_to_color_assignments t2 s) in
      Dict.contains l (_compound_to_color s1) = false ->
      forall c, fst (color_for_compound t1 t2 l s) = Ok c
                <-> lowest_available s1 c).
Proof.
  split.
  - intros Hnd Hlen Hfresh.
    apply (fresh_run cs 0%nat [] [] (__init__ palette)); auto.
    + apply Inv_init.
    + apply filled_init.
    + intros l' u Hu. discriminate.
    + intros l' c Ha. discriminate.
  - intros HI s1 Hnew c.
    destruct (color_for_cases t1 t2 l s HI)
      as [s1' [Hget [_ [_ Hcases]]]].
    assert (Hs1 : s1 = s1') by (unfold s1; now rewrite Hget).
    rewrite Hs1 in *. clear s1 Hs1. unfold Dict.contains in Hnew.
    destruct Hcases as [[c' [Ha _]]|[[_ [Hfull E]]|[_ [c' [Hlow E]]]]].
    + unfold assigned in Ha. now rewrite Ha in Hnew.
    + rewrite E. simpl. split; [discriminate|]. intros Hlow. exfalso.
      pose proof (lowest_available_free _ _ Hlow) as Hfree.
      rewrite (Hfull c (lowest_available_In _ _ Hlow)) in Hfree. discriminate.
    + rewrite E. simpl. split.
      * intros Hc. inversion Hc; subst. exact Hlow.
      * intros Hlow'. f_equal. eapply lowest_available_unique; eauto.
Qed.

Lemma allocation_in_palette_order_witness :
  fst (run (lookups [(0, 0, "Ammoniak"); (0.3, 0.3, "Benzol"); (1.0, 1.0, "Aceton")])
         (__init__ _palette))
  = [Returned_color (0.9, 0.0, 0.04); Returned_color (0.54, 0.16, 0.8);
     Returned_color (1.0, 0.48, 0.0)]
  /\ (fst (color_for_compound 1.01 1.01 "Aceton" two_assigned) = Ok (0.9, 0.0, 0.04)
      <-> lowest_available
            (snd (get_compound_to_color_assignments 1.01 two_assigned))
            (0.9, 0.0, 0.04)).
Proof.
  destruct (allocation_in_palette_order _palette
              [(0, 0, "Ammoniak"); (0.3, 0.3, "Benzol"); (1.0, 1.0, "Aceton")]
              two_assigned 1.01 1.01 "Aceton") as [Hrun Hlow].
  split.
  - apply Hrun.
    + simpl. repeat constructor; simpl; intuition discriminate.
    + simpl. lia.
    + simpl. repeat split; repeat constructor; vm_compute; discriminate.
  - apply Hlow.
    + apply Inv_check_sound. vm_compute. reflexivity.
    + vm_compute. reflexivity.
Defined.

(** ** The palette and the timeout in effect *)

Lemma color_for_In_palette t1 t2 l s c :
  Inv s -> fst (color_for_compound t1 t2 l s) = Ok c -> In c _palette.
Proof.
  intros HI Hc.
  destruct (color_for_cases t1 t2 l s HI)
    as [s1 [_ [_ [HI1 [[c' [Ha E]]|[[_ [_ E]]|[_ [c' [Hlow E]]]]]]]]];
    rewrite E in Hc; simpl in Hc; inversion Hc; subst.
  - eapply assigned_In_palette; eauto.
  - eapply lowest_available_In; eauto.
Qed.

Lemma do_call_palette cl s :
  Inv s -> self_palette (snd (do_call cl s)) = self_palette s.
Proof.
  intros HI. destruct cl as [t1 t2 l|t]; simpl.
  - destruct (color_for_cases t1 t2 l s HI)
      as [s1 [_ [Hsw [_ [[c' [_ E]]|[[_ [_ E]]|[_ [c' [_ E]]]]]]]]];
      rewrite E; simpl; apply (swept_palette _ _ _ Hsw).
  - destruct (sweep_ok t s HI) as [s1 [E [Hsw _]]]. rewrite E. simpl.
    apply (swept_palette _ _ _ Hsw).
Qed.

Lemma run_palette calls : forall s,
  Inv s ->
  self_palette (snd (run calls s)) = self_palette s
  /\ forall c, In (Returned_color c) (fst (run calls s)) -> In c _palette.
Proof.
  induction calls as [|cl calls IH]; intros s HI; simpl.
  - split; [reflexivity|tauto].
  - pose proof (do_call_Inv cl s HI) as HI'.
    pose proof (do_call_palette cl s HI) as Hp.
    assert (Hout : forall c, fst (do_call cl s) = Returned_color c -> In c _palette).
    { intros c. destruct cl as [t1 t2 l|t]; simpl.
      - pose proof (color_for_In_palette t1 t2 l s c HI) as Hin.
        destruct (color_for_compound t1 t2 l s) as [[col|e] s']; simpl in *;
          [|discriminate].
        intros Hc. inversion Hc; subst. now apply Hin.
      - destruct (get_compound_to_color_assignments t s) as [[r|e] s'];
          discriminate. }
    destruct (do_call cl s) as [o s1]. simpl in *.
    destruct (IH s1 HI') as [Hp' Hin'].
    destruct (run calls s1) as [os s2]. simpl in *.
    split; [congruence|]. intros c [Hc|Hc]; auto.
Qed.

(** C4.  The code does not use the palette it is constructed with: an
    assigner constructed with the one-color palette [(0.0, 0.0, 0.0)] keeps
    that palette in [self._palette] and answers its first lookup with
    (0.9, 0.0, 0.04), the first color of the module's [_palette], which is
    not a color of the palette it was given. *)
Theorem constructor_palette_ignored :
  NoDup [(0.0, 0.0, 0.0)]
  /\ self_palette (__init__ [(0.0, 0.0, 0.0)]) = [(0.0, 0.0, 0.0)]
  /\ fst (color_for_compound 0 0 "Ammoniak" (__init__ [(0.0, 0.0, 0.0)]))
     = Ok (0.9, 0.0, 0.04)
  /\ ~ In (0.9, 0.0, 0.04)
         (self_palette
            (snd (color_for_compound 0 0 "Ammoniak" (__init__ [(0.0, 0.0, 0.0)])))).
Proof.
  split; [repeat constructor; simpl; tauto|].
  split; [reflexivity|]. split; [vm_compute; reflexivity|].
  vm_compute. intros [H|[]]. discriminate.
Qed.

(** ** Further properties of the two methods *)

(** *** The constructor's argument *)

Lemma mark_expired_self_palette P t items : forall acc s,
  mark_expired t items acc (with_self_palette P s)
  = (fst (mark_expired t items acc s),
     with_self_palette P (snd (mark_expired t items acc s))).
Proof.
  induction items as [|[l u] items IH]; intros acc s; simpl; [reflexivity|].
  destruct (Qgt_bool (float_sub t u) TIMEOUT_SEC); [|apply IH].
  destruct (Dict.get l (_compound_to_color s)) as [c|]; [|reflexivity].
  apply (IH (acc ++ [l])
           (with_color_avaliable (Dict.set c true (_color_avaliable s)) s)).
Qed.

Lemma delete_expired_self_palette P : forall ex s,
  delete_expired ex (with_self_palette P s)
  = (fst (delete_expired ex s), with_self_palette P (snd (delete_expired ex s))).
Proof.
  induction ex as [|l ex IH]; intros s; simpl; [reflexivity|].
  destruct (Dict.del l (_compound_last_used s)) as [lu'|]; [|reflexivity].
  simpl. destruct (Dict.del l (_compound_to_color s)) as [cc'|]; [|reflexivity].
  apply (IH (with_compound_to_color cc' (with_compound_last_used lu' s))).
Qed.

Lemma get_assignments_self_palette P t s :
  get_compound_to_color_assignments t (with_self_palette P s)
  = (fst (get_compound_to_color_assignments t s),
     with_self_palette P (snd (get_compound_to_color_assignments t s))).
Proof.
  unfold get_compound_to_color_assignments.
  change (_compound_last_used (with_self_palette P s))
    with (_compound_last_used s).
  rewrite mark_expired_self_palette.
  destruct (mark_expired t (_compound_last_used s) [] s) as [[ex|e] s1];
    simpl; [|reflexivity].
  rewrite delete_expired_self_palette.
  destruct (delete_expired ex s1) as [[[]|e] s2]; reflexivity.
Qed.

Lemma color_for_self_palette P t1 t2 l s :
  color_for_compound t1 t2 l (with_self_palette P s)
  = (fst (color_for_compound t1 t2 l s),
     with_self_palette P (snd (color_for_compound t1 t2 l s))).
Proof.
  unfold color_for_compound. rewrite get_assignments_self_palette.
  destruct (get_compound_to_color_assignments t2 s) as [[[]|e] s1];
    simpl; [|reflexivity].
  destruct (Dict.contains l (_compound_to_color s1)).
  - destruct (Dict.get l (_compound_to_color s1)); reflexivity.
  - destruct (index true (Dict.values (_color_avaliable s1))) as [i|];
      [|reflexivity].
    destruct (nth_error _palette i); reflexivity.
Qed.

Lemma do_call_self_palette P cl s :
  do_call cl (with_self_palette P s)
  = (fst (do_call cl s), with_self_palette P (snd (do_call cl s))).
Proof.
  destruct cl as [t1 t2 l|t]; simpl.
  - rewrite color_for_self_palette.
    destruct (color_for_compound t1 t2 l s) as [[c|e] s']; reflexivity.
  - rewrite get_assignments_self_palette.
    destruct (get_compound_to_color_assignments t s) as [[[]|e] s']; reflexivity.
Qed.

Lemma run_self_palette P calls : forall s,
  run calls (with_self_palette P s)
  = (fst (run calls s), with_self_palette P (snd (run calls s))).
Proof.
  induction calls as [|cl calls IH]; intros s; simpl; [reflexivity|].
  rewrite do_call_self_palette. destruct (do_call cl s) as [o s1]. simpl.
  rewrite IH. destruct (run calls s1) as [os s2]. reflexivity.
Qed.

(** X1. The palette handed to the constructor has no effect: two assigners
    constructed with any two palettes answer every sequence of calls alike,
    and their tables stay equal; the argument is only kept in
    [self._palette]. *)
Theorem constructor_palette_is_unused
    (palette palette' : list color) (calls : list call) :
  fst (run calls (__init__ palette)) = fst (run calls (__init__ palette'))
  /\ snd (run calls (__init__ palette))
     = with_self_palette palette (snd (run calls (__init__ palette')))
  /\ self_palette (snd (run calls (__init__ palette))) = palette.
Proof.
  change (__init__ palette) with (with_self_palette palette (__init__ palette')).
  rewrite run_self_palette. simpl. auto.
Qed.

(** *** Calls at which nothing is stale *)

Lemma mark_expired_none t items : forall acc s,
  (forall kv, In kv items ->
     Qgt_bool (float_sub t (snd kv)) TIMEOUT_SEC = false) ->
  mark_expired t items acc s = (Ok acc, s).
Proof.
  induction items as [|[l u] items IH]; intros acc s Hnone; simpl;
    [reflexivity|].
  pose proof (Hnone (l, u) (or_introl eq_refl)) as Hlu. simpl in Hlu.
  rewrite Hlu. apply IH. intros kv Hkv. apply Hnone. now right.
Qed.

(** X2. When no timestamp is older than the timeout at the clock reading
    (also when the clock has gone backwards, and on an empty assigner), the
    getter changes nothing and returns the assignment table, and a lookup of
    a label that is in the table returns its color and only sets that
    label's timestamp.  This needs no invariant. *)
Theorem nothing_stale_nothing_changes (s : ColorAssigner) (t : Q) :
  (forall l u, In (l, u) (_compound_last_used s) -> t - u <= TIMEOUT_SEC) ->
  get_compound_to_color_assignments t s = (Ok self_compound_to_color, s)
  /\ forall t1 l c,
       Dict.get l (_compound_to_color s) = Some c ->
       color_for_compound t1 t l s = (Ok c, refresh l t1 s).
Proof.
  intros Hfresh.
  assert (Hget : get_compound_to_color_assignments t s
                 = (Ok self_compound_to_color, s)).
  { unfold get_compound_to_color_assignments.
    rewrite mark_expired_none; [reflexivity|].
    intros [l u] Hin. apply keep_le. simpl. eauto. }
  split; [exact Hget|]. intros t1 l c Hl.
  unfold color_for_compound. rewrite Hget. simpl.
  unfold Dict.contains. rewrite Hl. reflexivity.
Qed.

Lemma nothing_stale_nothing_changes_witness :
  get_compound_to_color_assignments (-3) two_assigned
  = (Ok self_compound_to_color, two_assigned)
  /\ color_for_compound 0.5 0.5 "Benzol" two_assigned
     = (Ok (0.54, 0.16, 0.8), refresh "Benzol" 0.5 two_assigned).
Proof.
  split.
  - apply (nothing_stale_nothing_changes two_assigned (-3)).
    intros l u Hin. vm_compute in Hin.
    destruct Hin as [H|[H|[]]]; inversion H; subst; vm_compute; discriminate.
  - apply (nothing_stale_nothing_changes two_assigned 0.5).
    + intros l u Hin. vm_compute in Hin.
      destruct Hin as [H|[H|[]]]; inversion H; subst; vm_compute; discriminate.
    + vm_compute. reflexivity.
Defined.

(** *** A timestamp without an assignment *)

Lemma mark_expired_KeyError t items : forall acc s,
  Exists (fun kv => Qgt_bool (float_sub t (snd kv)) TIMEOUT_SEC = true
                    /\ Dict.get (fst kv) (_compound_to_color s) = None) items ->
  exists s',
    mark_expired t items acc s = (Raise KeyError, s')
    /\ _compound_to_color s' = _compound_to_color s
    /\ _compound_last_used s' = _compound_last_used s.
Proof.
  induction items as [|[l u] items IH]; intros acc s Hex; simpl.
  - inversion Hex.
  - destruct (Qgt_bool (float_sub t u) TIMEOUT_SEC) eqn:E.
    + destruct (Dict.get l (_compound_to_color s)) as [c|] eqn:El.
      * inversion Hex as [? ? [_ Hn]|? ? Hrest]; subst;
          [simpl in Hn; congruence|].
        destruct (IH (acc ++ [l])
                    (with_color_avaliable
                       (Dict.set c true (_color_avaliable s)) s) Hrest)
          as [s' [Hrun [Hcc Hlu]]].
        exists s'. auto.
      * exists s. auto.
    + inversion Hex as [? ? [Hgt _]|? ? Hrest]; subst;
        [simpl in Hgt; congruence|].
      apply IH. exact Hrest.
Qed.

(** X3. On a state in which a timestamp that line 67 finds older than the
    timeout (the float difference of the readings is greater than it)
    belongs to a label without an assignment, the getter raises KeyError
    (line 68) before
    it has deleted anything: both the assignment table and the timestamp
    table are as before; and every lookup with that sweep reading raises the
    same error from the same state. *)
Theorem stale_timestamp_without_assignment
    (s : ColorAssigner) (t : Q) (l : string) (u : Q) :
  In (l, u) (_compound_last_used s) ->
  TIMEOUT_SEC < float_sub t u ->
  Dict.get l (_compound_to_color s) = None ->
  exists s',
    get_compound_to_color_assignments t s = (Raise KeyError, s')
    /\ _compound_to_color s' = _compound_to_color s
    /\ _compound_last_used s' = _compound_last_used s
    /\ forall t1 l', color_for_compound t1 t l' s = (Raise KeyError, s').
Proof.
  intros Hin Hlt Hnone.
  destruct (mark_expired_KeyError t (_compound_last_used s) [] s)
    as [s' [Hrun [Hcc Hlu]]].
  { apply Exists_exists. exists (l, u). split; [exact Hin|].
    split; [now apply Qgt_bool_true|exact Hnone]. }
  assert (Hget : get_compound_to_color_assignments t s = (Raise KeyError, s'))
    by (unfold get_compound_to_color_assignments; now rewrite Hrun).
  exists s'. split; [exact Hget|]. split; [exact Hcc|]. split; [exact Hlu|].
  intros t1 l'. unfold color_for_compound. now rewrite Hget.
Qed.

Lemma stale_timestamp_without_assignment_witness :
  exists s',
    get_compound_to_color_assignments 2
      (with_compound_last_used [("Benzol", 0)] (__init__ _palette))
    = (Raise KeyError, s').
Proof.
  destruct (stale_timestamp_without_assignment
              (with_compound_last_used [("Benzol", 0)] (__init__ _palette))
              2 "Benzol" 0) as [s' [Hget _]].
  - simpl. left. reflexivity.
  - vm_compute. reflexivity.
  - vm_compute. reflexivity.
  - exists s'. exact Hget.
Defined.

(** *** Sweeps compose *)

Lemma dict_ext {K V : Type} `{EqDec K} (d : Dict.t K V) : forall d',
  Dict.keys d = Dict.keys d' -> NoDup (Dict.keys d) ->
  (forall k, Dict.get k d = Dict.get k d') -> d = d'.
Proof.
  induction d as [|[k v] d IH]; intros [|[k' v'] d'] Hkeys Hnd Hget;
    try discriminate; [reflexivity|].
  simpl in Hkeys. inversion Hkeys; subst k'.
  inversion Hnd as [|? ? Hnotin Hnd']; subst.
  pose proof (Hget k) as Hk. simpl in Hk.
  destruct (eq_dec k k); [|congruence]. inversion Hk; subst v'.
  f_equal. apply IH; auto. intros k0.
  destruct (eq_dec k0 k) as [->|Hne].
  - assert (Hn : Dict.get k d = None) by now apply get_None_iff.
    assert (Hn' : Dict.get k d' = None)
      by (apply get_None_iff; unfold Dict.keys in *; congruence).
    congruence.
  - specialize (Hget k0). simpl in Hget.
    destruct (eq_dec k0 k); [congruence|exact Hget].
Qed.

(** The timestamp table after a sweep, as a list. *)
Lemma sweep_last_used_items t s :
  Inv s ->
  _compound_last_used (snd (get_compound_to_color_assignments t s))
  = filter (fun kv => negb (Qgt_bool (float_sub t (snd kv)) TIMEOUT_SEC))
      (_compound_last_used s).
Proof.
  intros HI. pose proof HI as [Hlu Hcc Hkeys Hlife Hun Hex].
  pose proof (stale_items_keys t s) as Hstale.
  set (items := stale_items t (_compound_last_used s)) in *.
  assert (Hlive : forall l, In l (map fst items) -> exists c, assigned s l c).
  { intros l Hl. apply contains_get. rewrite Hlife. apply contains_true_iff.
    apply in_map_iff in Hl. destruct Hl as [kv [<- Hf]].
    apply filter_In in Hf. destruct Hf as [Hf _]. now apply in_map. }
  destruct (@mark_expired_spec t (_compound_last_used s) [] s) as [cs [_ Hrun]].
  { intros kv Hkv. apply Hlive. now apply in_map. }
  fold items in Hrun.
  unfold get_compound_to_color_assignments. rewrite Hrun. simpl.
  rewrite delete_expired_spec; simpl.
  2:{ apply NoDup_keys_filter. exact Hlu. }
  2:{ intros l Hl. split.
      - apply contains_true_iff. apply in_map_iff in Hl.
        destruct Hl as [kv [<- Hf]]. apply filter_In in Hf.
        destruct Hf as [Hf _]. now apply in_map.
      - apply contains_get. now apply Hlive. }
  rewrite remove_all_filter. apply filter_ext_in. intros [l u] Hin. simpl.
  assert (Hst : stale t s l = Qgt_bool (float_sub t u) TIMEOUT_SEC)
    by (unfold stale; now rewrite (In_get _ _ _ Hlu Hin)).
  destruct (in_dec eq_dec l (map fst items)) as [Hl|Hl].
  - apply Hstale in Hl; [|exact Hlu]. rewrite <- Hst, Hl. reflexivity.
  - destruct (Qgt_bool (float_sub t u) TIMEOUT_SEC); [|reflexivity].
    exfalso. apply Hl. now apply Hstale.
Qed.

(** The availability of a color after a sweep. *)
Lemma swept_held t s s1 l c :
  Inv s -> swept t s s1 -> assigned s l c ->
  Dict.get c (_color_avaliable s1) = Some (stale t s l).
Proof.
  intros HI Hsw Ha. destruct (stale t s l) eqn:E.
  - apply (swept_released _ _ _ Hsw). eauto.
  - now destruct (swept_live t s s1 l c HI Hsw Ha E) as [_ [_ Hf]].
Qed.

Lemma swept_unheld t s s1 c :
  swept t s s1 -> (forall l, ~ assigned s l c) ->
  Dict.get c (_color_avaliable s1) = Dict.get c (_color_avaliable s).
Proof.
  intros Hsw Hnone. apply (swept_kept _ _ _ Hsw). intros l Ha.
  exfalso. now apply (Hnone l).
Qed.

Lemma stale_after_sweep t t' s s1 l :
  swept t s s1 ->
  stale t' s1 l = if stale t s l then false else stale t' s l.
Proof.
  intros Hsw. unfold stale at 1. rewrite (swept_last_used _ _ _ Hsw).
  destruct (stale t s l); reflexivity.
Qed.

Lemma Qgt_bool_mono t t' u :
  t <= t' ->
  Qgt_bool (float_sub t u) TIMEOUT_SEC = true ->
  Qgt_bool (float_sub t' u) TIMEOUT_SEC = true.
Proof.
  intros Hle Hgt. apply expired_iff in Hgt. apply expired_iff. lra.
Qed.

Lemma stale_mono t t' s l :
  t <= t' -> stale t s l = true -> stale t' s l = true.
Proof.
  intros Hle. unfold stale.
  destruct (Dict.get l (_compound_last_used s)); [|discriminate].
  now apply Qgt_bool_mono.
Qed.

Lemma sweep_sweep t t' s :
  Inv s -> t <= t' ->
  get_compound_to_color_assignments t'
    (snd (get_compound_to_color_assignments t s))
  = get_compound_to_color_assignments t' s.
Proof.
  intros HI Hle.
  pose proof (sweep_last_used_items t s HI) as Hl1.
  pose proof (sweep_last_used_items t' s HI) as Hl2'.
  destruct (sweep_ok t s HI) as [s1 [E1 [Hsw1 HI1]]].
  pose proof (sweep_last_used_items t' s1 HI1) as Hl2.
  destruct (sweep_ok t' s1 HI1) as [s2 [E2 [Hsw2 HI2]]].
  destruct (sweep_ok t' s HI) as [s2' [E2' [Hsw2' HI2']]].
  rewrite E1 in *. simpl in *. rewrite E2 in *. rewrite E2' in *. simpl in *.
  f_equal.
  assert (Hst : forall l, negb (stale t s l) && negb (stale t' s1 l)
                          = negb (stale t' s l)).
  { intros l. rewrite (stale_after_sweep t t' s s1 l Hsw1).
    destruct (stale t s l) eqn:E; simpl; [|reflexivity].
    now rewrite (stale_mono t t' s l Hle E). }
  assert (Hp : self_palette s2 = self_palette s2').
  { rewrite (swept_palette _ _ _ Hsw2), (swept_palette _ _ _ Hsw1).
    symmetry. apply (swept_palette _ _ _ Hsw2'). }
  assert (Hc : _compound_to_color s2 = _compound_to_color s2').
  { rewrite (swept_items _ _ _ Hsw2), (swept_items _ _ _ Hsw1),
      (swept_items _ _ _ Hsw2'), filter_filter_andb.
    apply filter_ext. intros [l c]. apply Hst. }
  assert (Hl : _compound_last_used s2 = _compound_last_used s2').
  { rewrite Hl2, Hl1, Hl2', filter_filter_andb. apply filter_ext.
    intros [l u]. simpl.
    destruct (Qgt_bool (float_sub t u) TIMEOUT_SEC) eqn:E; simpl; [|reflexivity].
    now rewrite (Qgt_bool_mono t t' u Hle E). }
  assert (Ha : _color_avaliable s2 = _color_avaliable s2').
  { apply dict_ext.
    - rewrite (inv_avaliable_keys _ HI2). symmetry.
      apply (inv_avaliable_keys _ HI2').
    - rewrite (inv_avaliable_keys _ HI2). apply NoDup_palette.
    - intros c.
      destruct (Dict.get c (_color_avaliable s)) as [[|]|] eqn:Ec.
      + assert (Hnone : forall l, ~ assigned s l c).
        { intros l Hal. assert (Dict.get c (_color_avaliable s) = Some false)
            by (apply (inv_unavailable _ HI); eauto). congruence. }
        rewrite (swept_unheld t' s s2' c Hsw2' Hnone).
        rewrite (swept_unheld t' s1 s2 c Hsw2).
        * apply (swept_unheld t s s1 c Hsw1 Hnone).
        * intros l Hal. apply (Hnone l). unfold assigned in *.
          rewrite (swept_to_color _ _ _ Hsw1) in Hal.
          destruct (stale t s l); [discriminate|exact Hal].
      + apply (inv_unavailable _ HI) in Ec. destruct Ec as [l Hal].
        rewrite (swept_held t' s s2' l c HI Hsw2' Hal).
        destruct (stale t s l) eqn:E.
        * rewrite (stale_mono t t' s l Hle E).
          rewrite (swept_unheld t' s1 s2 c Hsw2).
          -- rewrite (swept_held t s s1 l c HI Hsw1 Hal). now rewrite E.
          -- intros l' Hal'. unfold assigned in Hal'.
             rewrite (swept_to_color _ _ _ Hsw1) in Hal'.
             destruct (stale t s l') eqn:E'; [discriminate|].
             assert (l' = l) by (eapply (inv_exclusive _ HI); eauto).
             subst l'. congruence.
        * assert (Hal1 : assigned s1 l c).
          { unfold assigned. rewrite (swept_to_color _ _ _ Hsw1), E.
            exact Hal. }
          rewrite (swept_held t' s1 s2 l c HI1 Hsw2 Hal1).
          rewrite (stale_after_sweep t t' s s1 l Hsw1), E. reflexivity.
      + assert (Hnone : forall l, ~ assigned s l c).
        { intros l Hal. assert (Dict.get c (_color_avaliable s) = Some false)
            by (apply (inv_unavailable _ HI); eauto). congruence. }
        rewrite (swept_unheld t' s s2' c Hsw2' Hnone).
        rewrite (swept_unheld t' s1 s2 c Hsw2).
        * apply (swept_unheld t s s1 c Hsw1 Hnone).
        * intros l Hal. apply (Hnone l). unfold assigned in *.
          rewrite (swept_to_color _ _ _ Hsw1) in Hal.
          destruct (stale t s l); [discriminate|exact Hal]. }
  destruct s2, s2'. simpl in *. congruence.
Qed.

(** X4. A sweep is absorbed by any call made at the same or a later clock
    reading: after a call of the getter at [t], a getter call or a lookup
    whose sweep reads [t' >= t] gives the outcome and the state it would
    have given without that earlier call.  In particular the getter is
    idempotent at a fixed reading. *)
Theorem later_call_absorbs_sweep (s : ColorAssigner) (t t' : Q) :
  Inv s -> t <= t' ->
  let s1 := snd (get_compound_to_color_assignments t s) in
  get_compound_to_color_assignments t' s1
  = get_compound_to_color_assignments t' s
  /\ (forall t1 l,
        color_for_compound t1 t' l s1 = color_for_compound t1 t' l s)
  /\ get_compound_to_color_assignments t s1 = (Ok self_compound_to_color, s1).
Proof.
  intros HI Hle s1.
  pose proof (sweep_sweep t t' s HI Hle) as H1. fold s1 in H1.
  split; [exact H1|]. split.
  - intros t1 l. unfold color_for_compound. now rewrite H1.
  - pose proof (sweep_sweep t t s HI (Qle_refl t)) as H2. fold s1 in H2.
    rewrite H2. unfold s1.
    destruct (sweep_ok t s HI) as [s1' [E _]]. rewrite E. reflexivity.
Qed.

Lemma later_call_absorbs_sweep_witness :
  color_for_compound 1.5 1.5 "Aceton"
    (snd (get_compound_to_color_assignments 1.2 two_assigned))
  = color_for_compound 1.5 1.5 "Aceton" two_assigned.
Proof.
  apply (later_call_absorbs_sweep two_assigned 1.2 1.5).
  - apply Inv_check_sound. vm_compute. reflexivity.
  - vm_compute. discriminate.
Defined.

(** X5. Once line 67 finds every timestamp older than the timeout (each
    float difference of the readings is greater than it), a sweep leaves the
    assigner as its constructor made it: both tables empty and every palette
    color available, in palette order. *)
Theorem idle_assigner_is_reset (s : ColorAssigner) (t : Q) :
  Inv s ->
  (forall l u, Dict.get l (_compound_last_used s) = Some u ->
               TIMEOUT_SEC < float_sub t u) ->
  get_compound_to_color_assignments t s
  = (Ok self_compound_to_color, __init__ (self_palette s)).
Proof.
  intros HI Hall.
  destruct (sweep_ok t s HI) as [s1 [E [Hsw HI1]]]. rewrite E. f_equal.
  assert (Hst : forall l c, assigned s l c -> stale t s l = true).
  { intros l c Ha.
    assert (Hc : Dict.contains l (_compound_last_used s) = true)
      by (rewrite <- (inv_lifecycle _ HI); apply contains_get; eauto).
    apply contains_get in Hc. destruct Hc as [u Hu].
    apply (stale_gt _ _ _ _ Hu). eauto. }
  assert (Hc : _compound_to_color s1 = []).
  { rewrite (swept_items _ _ _ Hsw). apply filter_nil. intros [l c] Hin.
    simpl. apply (In_get _ _ _ (inv_to_color_keys _ HI)) in Hin.
    now rewrite (Hst l c Hin). }
  assert (Hl : _compound_last_used s1 = []).
  { pose proof (sweep_last_used_items t s HI) as Hitems.
    rewrite E in Hitems. simpl in Hitems. rewrite Hitems.
    apply filter_nil. intros [l u] Hin. simpl.
    apply (In_get _ _ _ (inv_last_used_keys _ HI)) in Hin.
    apply negb_false_iff, Qgt_bool_true. eauto. }
  assert (Ha : _color_avaliable s1 = _color_avaliable (__init__ (self_palette s))).
  { apply dict_ext.
    - rewrite (inv_avaliable_keys _ HI1). symmetry.
      apply (inv_avaliable_keys _ (Inv_init (self_palette s))).
    - rewrite (inv_avaliable_keys _ HI1). apply NoDup_palette.
    - intros c.
      destruct (in_dec eq_dec c _palette) as [Hin|Hout].
      + destruct (In_nth_error _ _ Hin) as [i Hi].
        rewrite (filled_init (self_palette s) i c Hi). simpl.
        destruct (Dict.get c (_color_avaliable s)) as [[|]|] eqn:Ec.
        * rewrite (swept_unheld t s s1 c Hsw); [exact Ec|].
          intros l Hal.
          assert (Dict.get c (_color_avaliable s) = Some false)
            by (apply (inv_unavailable _ HI); eauto). congruence.
        * apply (inv_unavailable _ HI) in Ec. destruct Ec as [l Hal].
          rewrite (swept_held t s s1 l c HI Hsw Hal).
          now rewrite (Hst l c Hal).
        * exfalso. apply get_None_iff in Ec.
          now rewrite (inv_avaliable_keys _ HI) in Ec.
      + transitivity (@None bool); [|symmetry]; apply get_None_iff.
        * now rewrite (inv_avaliable_keys _ HI1).
        * now rewrite (inv_avaliable_keys _ (Inv_init (self_palette s))). }
  pose proof (swept_palette _ _ _ Hsw) as Hp.
  destruct s1. simpl in *. subst. reflexivity.
Qed.

Lemma idle_assigner_is_reset_witness :
  get_compound_to_color_assignments 1.5 all_assigned
  = (Ok self_compound_to_color, __init__ (self_palette all_assigned)).
Proof.
  apply (idle_assigner_is_reset all_assigned 1.5).
  - apply Inv_check_sound. vm_compute. reflexivity.
  - intros l u Hu. apply get_Some_In in Hu. vm_compute in Hu.
    destruct Hu as [H|[H|[H|[H|[H|[]]]]]]; inversion H; subst;
      vm_compute; reflexivity.
Defined.

(** *** How many labels an assigner holds *)

Lemma NoDup_values {K V : Type} `{EqDec K} (d : Dict.t K V) :
  NoDup (Dict.keys d) ->
  (forall k1 k2 v, Dict.get k1 d = Some v -> Dict.get k2 d = Some v -> k1 = k2) ->
  NoDup (Dict.values d).
Proof.
  induction d as [|[k v] d IH]; simpl; intros Hnd Hinj; [constructor|].
  inversion Hnd as [|? ? Hnotin Hnd']; subst.
  assert (Htail : forall k' v', In (k', v') d ->
            Dict.get k' ((k, v) :: d) = Some v' /\ k' <> k).
  { intros k' v' Hin. assert (k' <> k).
    { intros ->. apply Hnotin. apply (in_map fst) in Hin. exact Hin. }
    split; [|assumption]. simpl. destruct (eq_dec k' k); [congruence|].
    now apply In_get. }
  constructor.
  - intros Hin. apply in_map_iff in Hin. destruct Hin as [[k' v'] [Hv Hin]].
    simpl in Hv. subst v'. destruct (Htail k' v Hin) as [Hg Hne].
    apply Hne. apply (Hinj k' k v Hg). simpl.
    destruct (eq_dec k k); congruence.
  - apply IH; [exact Hnd'|]. intros k1 k2 v0 H1 H2.
    apply get_Some_In in H1, H2.
    destruct (Htail k1 v0 H1) as [G1 _]. destruct (Htail k2 v0 H2) as [G2 _].
    eapply Hinj; eauto.
Qed.

Lemma same_length {A : Type} (l l' : list A) :
  NoDup l -> NoDup l' -> (forall x, In x l <-> In x l') ->
  List.length l = List.length l'.
Proof.
  intros Hl Hl' Hiff. apply Nat.le_antisymm.
  - apply NoDup_incl_length; [exact Hl|]. intros x Hx. now apply Hiff.
  - apply NoDup_incl_length; [exact Hl'|]. intros x Hx. now apply Hiff.
Qed.

Lemma filter_length_split {A : Type} (f : A -> bool) (l : list A) :
  (List.length (filter f l) + List.length (filter (fun x => negb (f x)) l)
   = List.length l)%nat.
Proof.
  induction l as [|x l IH]; simpl; [reflexivity|].
  destruct (f x); simpl; lia.
Qed.

Lemma values_NoDup s : Inv s -> NoDup (Dict.values (_compound_to_color s)).
Proof.
  intros HI. apply NoDup_values; [apply (inv_to_color_keys _ HI)|].
  intros l1 l2 c H1 H2. eapply (inv_exclusive _ HI); eauto.
Qed.

Lemma values_In s c :
  Inv s ->
  In c (Dict.values (_compound_to_color s)) <-> exists l, assigned s l c.
Proof.
  intros HI. unfold assigned. split.
  - intros Hin. apply in_map_iff in Hin. destruct Hin as [[l c'] [Hc Hin]].
    simpl in Hc. subst c'. exists l.
    now apply (In_get _ _ _ (inv_to_color_keys _ HI)).
  - intros [l Hl]. apply get_Some_In in Hl.
    apply (in_map snd) in Hl. exact Hl.
Qed.

(** X6. An assigner that satisfies the invariants has as many timestamps as
    assignments, at most as many assignments as the palette has colors, as
    many unavailable colors as assignments, and as many available colors as
    the palette has colors left. *)
Theorem table_sizes (s : ColorAssigner) :
  Inv s ->
  List.length (_compound_to_color s) = List.length (_compound_last_used s)
  /\ (List.length (_compound_to_color s) <= List.length _palette)%nat
  /\ List.length (filter (fun cb => negb (snd cb)) (_color_avaliable s))
     = List.length (_compound_to_color s)
  /\ List.length (filter (fun cb => snd cb) (_color_avaliable s))
     = (List.length _palette - List.length (_compound_to_color s))%nat.
Proof.
  intros HI.
  assert (H1 : List.length (_compound_to_color s)
               = List.length (_compound_last_used s)).
  { rewrite <- (length_map fst (_compound_to_color s)).
    rewrite <- (length_map fst (_compound_last_used s)).
    apply same_length.
    - apply (inv_to_color_keys _ HI).
    - apply (inv_last_used_keys _ HI).
    - intros l. fold (Dict.keys (_compound_to_color s)).
      fold (Dict.keys (_compound_last_used s)).
      rewrite <- !contains_true_iff. now rewrite (inv_lifecycle _ HI). }
  assert (H2 : (List.length (_compound_to_color s) <= List.length _palette)%nat).
  { rewrite <- (length_map snd (_compound_to_color s)).
    apply NoDup_incl_length; [now apply values_NoDup|].
    intros c Hc. apply (values_In s c HI) in Hc. destruct Hc as [l Ha].
    eapply assigned_In_palette; eauto. }
  assert (Hnd : NoDup (Dict.keys (_color_avaliable s)))
    by (rewrite (inv_avaliable_keys _ HI); apply NoDup_palette).
  assert (H3 : List.length (filter (fun cb => negb (snd cb)) (_color_avaliable s))
               = List.length (_compound_to_color s)).
  { rewrite <- (length_map fst (filter _ (_color_avaliable s))).
    rewrite <- (length_map snd (_compound_to_color s)).
    apply same_length.
    - now apply NoDup_keys_filter.
    - now apply values_NoDup.
    - intros c. fold (Dict.values (_compound_to_color s)).
      rewrite (values_In s c HI), <- (inv_unavailable _ HI). split.
      + intros Hin. apply in_map_iff in Hin.
        destruct Hin as [[c' b] [Hc Hf]]. simpl in Hc. subst c'.
        apply filter_In in Hf. destruct Hf as [Hin Hb]. simpl in Hb.
        destruct b; [discriminate|]. now apply In_get.
      + intros Hg. apply get_Some_In in Hg. apply in_map_iff.
        exists (c, false). split; [reflexivity|]. apply filter_In. auto. }
  split; [exact H1|]. split; [exact H2|]. split; [exact H3|].
  pose proof (filter_length_split (fun cb : color * bool => snd cb)
                (_color_avaliable s)) as Hsplit.
  cbv beta in Hsplit. rewrite H3 in Hsplit.
  rewrite <- (inv_avaliable_keys _ HI). unfold Dict.keys.
  rewrite length_map. lia.
Qed.

Lemma table_sizes_witness :
  List.length (filter (fun cb => snd cb) (_color_avaliable two_assigned))
  = (List.length _palette - List.length (_compound_to_color two_assigned))%nat.
Proof.
  apply (table_sizes two_assigned).
  apply Inv_check_sound. vm_compute. reflexivity.
Defined.

(** X7. A lookup raises [NoAvailableColors] exactly when, after its sweep,
    the label has no assignment and the assigner holds as many assignments
    as the palette has colors. *)
Theorem exhausted_iff_full
    (s : ColorAssigner) (t1 t2 : Q) (l : string) :
  Inv s ->
  let s1 := snd (get_compound_to_color_assignments t2 s) in
  fst (color_for_compound t1 t2 l s) = Raise NoAvailableColors
  <-> (Dict.contains l (_compound_to_color s1) = false
       /\ List.length (_compound_to_color s1) = List.length _palette).
Proof.
  intros HI s1.
  destruct (color_for_cases t1 t2 l s HI)
    as [s1' [Hget [_ [HI1 Hcases]]]].
  assert (Hs1 : s1 = s1') by (unfold s1; now rewrite Hget).
  rewrite Hs1. clear s1 Hs1.
  pose proof (values_NoDup s1' HI1) as Hnd.
  assert (Hsub : incl (Dict.values (_compound_to_color s1')) _palette).
  { intros c Hc. apply (values_In s1' c HI1) in Hc. destruct Hc as [l' Ha].
    eapply assigned_In_palette; eauto. }
  unfold Dict.contains.
  destruct Hcases as [[c [Ha E]]|[[Hn [Hfull E]]|[Hn [c [Hlow E]]]]];
    rewrite E; cbn [fst].
  - unfold assigned in Ha. rewrite Ha.
    split; [discriminate|intros [Hc _]; discriminate].
  - rewrite Hn. split; [intros _|reflexivity]. split; [reflexivity|].
    apply Nat.le_antisymm.
    + rewrite <- (length_map snd (_compound_to_color s1')).
      now apply NoDup_incl_length.
    + rewrite <- (length_map snd (_compound_to_color s1')).
      apply NoDup_incl_length; [apply NoDup_palette|].
      intros c Hc. apply (values_In s1' c HI1).
      apply (inv_unavailable _ HI1). auto.
  - split; [discriminate|]. intros [_ Hlen]. exfalso.
    assert (Hin : In c (Dict.values (_compound_to_color s1'))).
    { apply (@NoDup_length_incl _ (Dict.values (_compound_to_color s1'))
               _palette Hnd); [|exact Hsub|].
      - unfold Dict.values. rewrite length_map. lia.
      - eapply lowest_available_In; eauto. }
    apply (values_In s1' c HI1) in Hin. destruct Hin as [l' Ha'].
    apply lowest_available_free in Hlow.
    assert (Dict.get c (_color_avaliable s1') = Some false)
      by (apply (inv_unavailable _ HI1); eauto).
    congruence.
Qed.

Lemma exhausted_iff_full_witness :
  fst (color_for_compound 0.5 0.5 "Methanol" all_assigned)
  = Raise NoAvailableColors.
Proof.
  apply (exhausted_iff_full all_assigned 0.5 0.5 "Methanol").
  - apply Inv_check_sound. vm_compute. reflexivity.
  - split; vm_compute; reflexivity.
Defined.

(** X8. What a lookup returns is bound to the label afterwards: the label
    is assigned the returned color, its timestamp is the reading the call
    took, the color is unavailable; and as long as the next sweep falls
    within the timeout of that reading, the getter's dictionary binds the
    label to that color and a second lookup returns it again. *)
Theorem returned_color_is_bound
    (s : ColorAssigner) (t1 t2 : Q) (l : string) (c : color) :
  Inv s ->
  fst (color_for_compound t1 t2 l s) = Ok c ->
  let s' := snd (color_for_compound t1 t2 l s) in
  assigned s' l c
  /\ Dict.get l (_compound_last_used s') = Some t1
  /\ Dict.get c (_color_avaliable s') = Some false
  /\ forall t, t - t1 <= TIMEOUT_SEC ->
       (exists r s'', get_compound_to_color_assignments t s' = (Ok r, s'')
                      /\ Dict.get l (deref s'' r) = Some c)
       /\ forall t1', fst (color_for_compound t1' t l s') = Ok c.
Proof.
  intros HI Hc s'.
  pose proof (color_for_Inv t1 t2 l s HI) as HI'. fold s' in HI'.
  assert (Hpost : assigned s' l c
                  /\ Dict.get l (_compound_last_used s') = Some t1).
  { unfold s'. destruct (color_for_cases t1 t2 l s HI)
      as [s1 [_ [_ [HI1 [[c' [Ha E]]|[[_ [_ E]]|[_ [c' [Hlow E]]]]]]]]];
      rewrite E in *; simpl in Hc; inversion Hc; subst; unfold assigned; simpl.
    - split; [exact Ha|apply get_set_eq].
    - split; apply get_set_eq. }
  destruct Hpost as [Ha Hu]. split; [exact Ha|]. split; [exact Hu|].
  split; [apply (inv_unavailable _ HI'); eauto|].
  intros t Hle. pose proof (stale_le _ _ _ _ Hu Hle) as Hst. split.
  - destruct (sweep_ok t s' HI') as [s'' [E [Hsw _]]].
    exists self_compound_to_color, s''. split; [exact E|].
    now destruct (swept_live t s' s'' l c HI' Hsw Ha Hst) as [Ha'' _].
  - intros t1'.
    pose proof (color_for_live t1' t l s' l c HI' Ha Hst) as [_ [_ [_ Hret]]].
    now apply Hret.
Qed.

Lemma returned_color_is_bound_witness :
  assigned (snd (color_for_compound 0.5 0.5 "Aceton" two_assigned))
    "Aceton" (1.0, 0.48, 0.0).
Proof.
  apply (returned_color_is_bound two_assigned 0.5 0.5 "Aceton" (1.0, 0.48, 0.0)).
  - apply Inv_check_sound. vm_compute. reflexivity.
  - vm_compute. reflexivity.
Defined.

(** *** Runs on a new assigner *)

Lemma set_append {K V : Type} `{EqDec K} (k : K) (v : V) (d : Dict.t K V) :
  Dict.get k d = None -> Dict.set k v d = d ++ [(k, v)].
Proof.
  induction d as [|[k' v'] d IH]; simpl; [reflexivity|].
  destruct (eq_dec k k'); [discriminate|]. intros Hn. f_equal. auto.
Qed.

Lemma run_app calls1 : forall calls2 s,
  run (calls1 ++ calls2) s
  = (fst (run calls1 s) ++ fst (run calls2 (snd (run calls1 s))),
     snd (run calls2 (snd (run calls1 s)))).
Proof.
  induction calls1 as [|cl calls1 IH]; intros calls2 s; simpl.
  - now destruct (run calls2 s).
  - destruct (do_call cl s) as [o s1]. rewrite IH.
    destruct (run calls1 s1) as [os1 s2]. simpl.
    destruct (run calls2 s2) as [os2 s3]. reflexivity.
Qed.

(** The tables after a run of lookups of new labels during which nothing
    expires. *)
Lemma fresh_run_state cs : forall k earlier seen s,
  Inv s -> filled k s ->
  (forall l' u, Dict.get l' (_compound_last_used s) = Some u -> In u earlier) ->
  (forall l' c, assigned s l' c -> In l' seen) ->
  NoDup (map snd cs) ->
  (forall l, In l (map snd cs) -> ~ In l seen) ->
  no_expiry earlier cs ->
  (k + List.length cs <= List.length _palette)%nat ->
  let s' := snd (run (lookups cs) s) in
  Inv s'
  /\ filled (k + List.length cs) s'
  /\ _compound_to_color s'
     = _compound_to_color s
       ++ combine (map snd cs) (firstn (List.length cs) (skipn k _palette))
  /\ _compound_last_used s'
     = _compound_last_used s ++ map (fun c => (snd c, fst (fst c))) cs.
Proof.
  induction cs as [|[[t1 t2] l] cs IH];
    intros k earlier seen s HI Hf Hts Hseen Hnd Hnew Hfresh Hk.
  - simpl. rewrite Nat.add_0_r, !app_nil_r. auto.
  - simpl in Hnd, Hfresh. cbn [List.length] in Hk.
    inversion Hnd as [|? ? Hnotin Hnd']; subst.
    destruct Hfresh as [Hnow Hlater].
    assert (Hl : ~ In l seen) by (apply Hnew; now left).
    destruct (fresh_step k earlier seen s t1 t2 l HI Hf Hts Hseen)
      as [c [Hc [E [Hf' [Hts' Hseen']]]]]; auto; [lia|].
    pose proof (color_for_Inv t1 t2 l s HI) as HI'. rewrite E in HI'.
    cbn [snd] in HI'.
    assert (Hcc : Dict.get l (_compound_to_color s) = None).
    { destruct (Dict.get l (_compound_to_color s)) as [c'|] eqn:El;
        [|reflexivity].
      exfalso. apply Hl. eapply Hseen. exact El. }
    assert (Hlu : Dict.get l (_compound_last_used s) = None).
    { pose proof (inv_lifecycle _ HI l) as Hlife. unfold Dict.contains in Hlife.
      rewrite Hcc in Hlife.
      destruct (Dict.get l (_compound_last_used s)); [discriminate|reflexivity]. }
    destruct (IH (S k) (t1 :: earlier) (l :: seen) (allocate l t1 c s))
      as [HIf [Hff [Hccf Hluf]]]; auto; [|lia|].
    { intros l' Hl' [<-|Hin]; [tauto|]. apply (Hnew l'); [now right|exact Hin]. }
    cbn [lookups map run do_call fst snd List.length]. rewrite E.
    fold (lookups cs).
    destruct (run (lookups cs) (allocate l t1 c s)) as [os s2].
    cbn [fst snd] in *.
    split; [exact HIf|]. split; [now rewrite Nat.add_succ_r|].
    rewrite (skipn_nth _ _ _ Hc). cbn [firstn combine map].
    rewrite Hccf, Hluf, allocate_to_color, allocate_last_used.
    rewrite (set_append _ _ _ Hcc), (set_append _ _ _ Hlu).
    rewrite <- !app_assoc. split; reflexivity.
Qed.

(** X9. On a new assigner, after lookups of distinct labels during which
    nothing expires, at most as many as the palette has colors, the
    assignment table lists the labels in the order of their lookups, each
    with the palette color of its rank, and the timestamp table lists them
    in the same order with the reading of their lookup. *)
Theorem fresh_lookups_fill_tables
    (palette : list color) (cs : list (Q * Q * string)) :
  NoDup (map snd cs) ->
  (List.length cs <= List.length _palette)%nat ->
  no_expiry [] cs ->
  let s := snd (run (lookups cs) (__init__ palette)) in
  _compound_to_color s
  = combine (map snd cs) (firstn (List.length cs) _palette)
  /\ _compound_last_used s = map (fun c => (snd c, fst (fst c))) cs
  /\ forall i c, nth_error _palette i = Some c ->
       Dict.get c (_color_avaliable s) = Some (Nat.leb (List.length cs) i).
Proof.
  intros Hnd Hlen Hfresh.
  assert (Hlu0 : forall l' u,
            Dict.get l' (_compound_last_used (__init__ palette)) = Some u ->
            In u []) by (intros l' u Hu; discriminate).
  assert (Hcc0 : forall l' c, assigned (__init__ palette) l' c -> In l' [])
    by (intros l' c Ha; discriminate).
  destruct (fresh_run_state cs 0%nat [] [] (__init__ palette)
              (Inv_init palette) (filled_init palette) Hlu0 Hcc0 Hnd
              (fun l _ H => H) Hfresh Hlen)
    as [_ [Hf [Hcc Hlu]]].
  split; [exact Hcc|]. split; [exact Hlu|exact Hf].
Qed.

Lemma fresh_lookups_fill_tables_witness :
  _compound_to_color
    (snd (run (lookups [(0, 0, "Ammoniak"); (0.3, 0.4, "Benzol")])
            (__init__ _palette)))
  = [("Ammoniak", (0.9, 0.0, 0.04)); ("Benzol", (0.54, 0.16, 0.8))].
Proof.
  apply (fresh_lookups_fill_tables _palette
           [(0, 0, "Ammoniak"); (0.3, 0.4, "Benzol")]).
  - simpl. repeat constructor; simpl; intuition discriminate.
  - simpl. lia.
  - simpl. repeat split; repeat constructor; vm_compute; discriminate.
Defined.

(** X10. On a new assigner, once as many distinct labels as the palette
    has colors have been looked up and none has expired, the lookup of one
    more label raises [NoAvailableColors] and leaves the assigner as it
    was. *)
Theorem one_label_too_many
    (palette : list color) (cs : list (Q * Q * string))
    (t1 t2 : Q) (l : string) :
  NoDup (map snd cs) ->
  List.length cs = List.length _palette ->
  no_expiry [] cs ->
  Forall (fun c => t2 - fst (fst c) <= TIMEOUT_SEC) cs ->
  ~ In l (map snd cs) ->
  let s := snd (run (lookups cs) (__init__ palette)) in
  color_for_compound t1 t2 l s = (Raise NoAvailableColors, s).
Proof.
  intros Hnd Hlen Hfresh Hlast Hl s.
  assert (Hlu0 : forall l' u,
            Dict.get l' (_compound_last_used (__init__ palette)) = Some u ->
            In u []) by (intros l' u Hu; discriminate).
  assert (Hcc0 : forall l' c, assigned (__init__ palette) l' c -> In l' [])
    by (intros l' c Ha; discriminate).
  assert (Hle : (0 + List.length cs <= List.length _palette)%nat) by lia.
  destruct (fresh_run_state cs 0%nat [] [] (__init__ palette)
              (Inv_init palette) (filled_init palette) Hlu0 Hcc0 Hnd
              (fun l _ H => H) Hfresh Hle)
    as [HI [Hf [Hcc Hlu]]].
  fold s in HI, Hf, Hcc, Hlu. simpl in Hcc, Hlu.
  destruct (color_for_cases t1 t2 l s HI) as [s1 [_ [Hsw [_ Hcases]]]].
  assert (s1 = s).
  { apply (swept_noop _ _ _ Hsw). intros l'. unfold stale.
    destruct (Dict.get l' (_compound_last_used s)) as [u|] eqn:E;
      [|reflexivity].
    apply keep_le. apply get_Some_In in E. rewrite Hlu in E.
    apply in_map_iff in E. destruct E as [x [Hx Hin]].
    rewrite Forall_forall in Hlast. inversion Hx; subst. now apply Hlast. }
  subst s1.
  destruct Hcases as [[c [Ha _]]|[[_ [_ E]]|[_ [c [Hlow _]]]]].
  - exfalso. apply Hl. unfold assigned in Ha. apply get_Some_In in Ha.
    rewrite Hcc in Ha. apply in_combine_l in Ha. exact Ha.
  - exact E.
  - exfalso. destruct Hlow as [i [Hi [Hfree _]]].
    rewrite (Hf i c Hi) in Hfree.
    assert (Hlt : (i < List.length _palette)%nat)
      by (apply nth_error_Some; congruence).
    assert (Hb : Nat.leb (0 + List.length cs) i = false)
      by (apply Nat.leb_gt; lia).
    rewrite Hb in Hfree. discriminate.
Qed.

Lemma one_label_too_many_witness :
  let cs := [(0, 0, "Ammoniak"); (0, 0, "Benzol"); (0, 0, "Aceton");
             (0, 0, "Kohlenmonoxid"); (0, 0, "Chloroform")] in
  color_for_compound 0.2 0.2 "Methanol"
    (snd (run (lookups cs) (__init__ _palette)))
  = (Raise NoAvailableColors, snd (run (lookups cs) (__init__ _palette))).
Proof.
  apply (one_label_too_many _palette
           [(0, 0, "Ammoniak"); (0, 0, "Benzol"); (0, 0, "Aceton");
            (0, 0, "Kohlenmonoxid"); (0, 0, "Chloroform")] 0.2 0.2 "Methanol").
  - simpl. repeat constructor; simpl; intuition discriminate.
  - reflexivity.
  - simpl. repeat split; repeat constructor; vm_compute; discriminate.
  - repeat constructor; vm_compute; discriminate.
  - simpl. intuition discriminate.
Defined.

(** *** The first color of the palette *)

(** A lookup of a label that is assigned and not stale: the outcome, and the
    tables after the call in terms of those before it. *)
Lemma color_for_found t1 t2 l s c :
  Inv s -> assigned s l c -> stale t2 s l = false ->
  let rs := color_for_compound t1 t2 l s in
  fst rs = Ok c
  /\ Inv (snd rs)
  /\ (forall m, Dict.get m (_compound_to_color (snd rs))
                = if stale t2 s m then None
                  else Dict.get m (_compound_to_color s))
  /\ (forall m, m <> l ->
        Dict.get m (_compound_last_used (snd rs))
        = if stale t2 s m then None else Dict.get m (_compound_last_used s))
  /\ Dict.get l (_compound_last_used (snd rs)) = Some t1.
Proof.
  intros HI Ha Hst rs.
  pose proof (color_for_Inv t1 t2 l s HI) as HI'. fold rs in HI'.
  destruct (color_for_cases t1 t2 l s HI) as [s1 [_ [Hsw [_ Hcases]]]].
  destruct (swept_live t2 s s1 l c HI Hsw Ha Hst) as [Ha1 _].
  unfold assigned in Ha1.
  destruct Hcases as [[c' [Ha' E]]|[[Hn _]|[Hn _]]]; try congruence.
  unfold assigned in Ha'. assert (c' = c) by congruence. subst c'.
  unfold rs in *. rewrite E in *. simpl.
  split; [reflexivity|]. split; [exact HI'|]. split; [|split].
  - intros m. apply (swept_to_color _ _ _ Hsw).
  - intros m Hne. rewrite get_set_ne by congruence.
    apply (swept_last_used _ _ _ Hsw).
  - apply get_set_eq.
Qed.

(** A lookup returns the first color of the palette when, at its sweep,
    whoever holds that color is stale and the label has no assignment that
    is not stale. *)
Lemma color_for_first t1 t2 l s p0 :
  Inv s -> nth_error _palette 0 = Some p0 ->
  (forall m, assigned s m p0 -> stale t2 s m = true) ->
  (forall c, assigned s l c -> stale t2 s l = true) ->
  fst (color_for_compound t1 t2 l s) = Ok p0.
Proof.
  intros HI Hp0 Hholder Hl.
  destruct (color_for_cases t1 t2 l s HI) as [s1 [_ [Hsw [HI1 Hcases]]]].
  assert (Hin : In p0 _palette) by (eapply nth_error_In; eauto).
  assert (Hfree : Dict.get p0 (_color_avaliable s1) = Some true).
  { destruct (Dict.get p0 (_color_avaliable s)) as [[|]|] eqn:E.
    - rewrite (swept_unheld t2 s s1 p0 Hsw); [exact E|].
      intros m Ha. assert (Dict.get p0 (_color_avaliable s) = Some false)
        by (apply (inv_unavailable _ HI); eauto). congruence.
    - apply (inv_unavailable _ HI) in E. destruct E as [m Ha].
      rewrite (swept_held t2 s s1 m p0 HI Hsw Ha). now rewrite (Hholder m Ha).
    - exfalso. apply get_None_iff in E.
      now rewrite (inv_avaliable_keys _ HI) in E. }
  assert (Hlow : lowest_available s1 p0).
  { exists 0%nat. split; [exact Hp0|]. split; [exact Hfree|].
    intros j c' Hj. lia. }
  assert (Hnew : Dict.get l (_compound_to_color s1) = None).
  { rewrite (swept_to_color _ _ _ Hsw).
    destruct (stale t2 s l) eqn:E; [reflexivity|].
    destruct (Dict.get l (_compound_to_color s)) as [c|] eqn:El;
      [|reflexivity].
    specialize (Hl c El). congruence. }
  destruct Hcases as [[c [Ha _]]|[[_ [Hfull _]]|[_ [c [Hlow' E]]]]].
  - unfold assigned in Ha. congruence.
  - rewrite (Hfull p0 Hin) in Hfree. discriminate.
  - rewrite E. simpl. f_equal. eapply lowest_available_unique; eauto.
Qed.

(** X11. On a new assigner, after lookups of distinct labels during which
    nothing expires, a lookup whose sweep finds the first of them older than
    the timeout (the float difference that line 67 computes is greater than
    it) returns the first color of the palette, whether the others
    have expired or not; the label looked up is that first label or one not
    looked up before. *)
Theorem first_color_is_reused
    (palette : list color) (c0 : Q * Q * string) (cs : list (Q * Q * string))
    (t1 t2 : Q) (l : string) :
  NoDup (map snd (c0 :: cs)) ->
  (List.length (c0 :: cs) <= List.length _palette)%nat ->
  no_expiry [] (c0 :: cs) ->
  TIMEOUT_SEC < float_sub t2 (fst (fst c0)) ->
  ~ In l (map snd cs) ->
  fst (color_for_compound t1 t2 l
         (snd (run (lookups (c0 :: cs)) (__init__ palette))))
  = Ok (0.9, 0.0, 0.04).
Proof.
  intros Hnd Hlen Hfresh Hold Hl.
  assert (Hlu0 : forall l' u,
            Dict.get l' (_compound_last_used (__init__ palette)) = Some u ->
            In u []) by (intros l' u Hu; discriminate).
  assert (Hcc0 : forall l' c, assigned (__init__ palette) l' c -> In l' [])
    by (intros l' c Ha; discriminate).
  destruct (fresh_run_state (c0 :: cs) 0%nat [] [] (__init__ palette)
              (Inv_init palette) (filled_init palette) Hlu0 Hcc0 Hnd
              (fun l _ H => H) Hfresh Hlen)
    as [HI [_ [Hcc Hlu]]].
  set (s := snd (run (lookups (c0 :: cs)) (__init__ palette))) in *.
  destruct c0 as [[a1 a2] l0].
  cbn [__init__ _compound_to_color _compound_last_used Dict.empty app map
       List.length skipn snd fst] in Hcc, Hlu.
  unfold _palette in Hcc at 1. cbn [firstn combine] in Hcc.
  assert (Ha0 : assigned s l0 (0.9, 0.0, 0.04)).
  { unfold assigned. rewrite Hcc. simpl. destruct (eq_dec l0 l0); congruence. }
  assert (Hu0 : Dict.get l0 (_compound_last_used s) = Some a1).
  { rewrite Hlu. simpl. destruct (eq_dec l0 l0); congruence. }
  pose proof (stale_gt t2 s l0 a1 Hu0 Hold) as Hst.
  apply color_for_first; [exact HI|reflexivity| |].
  - intros m Ha. now rewrite (inv_exclusive _ HI _ _ _ Ha Ha0).
  - intros c Ha. unfold assigned in Ha. apply get_Some_In in Ha.
    rewrite Hcc in Ha. destruct Ha as [Ha|Ha].
    + inversion Ha; subst. exact Hst.
    + apply in_combine_l in Ha. tauto.
Qed.

Lemma first_color_is_reused_witness :
  fst (color_for_compound 1.01 1.01 "Aceton"
         (snd (run (lookups [(0, 0, "Ammoniak"); (0, 0, "Benzol")])
                 (__init__ _palette))))
  = Ok (0.9, 0.0, 0.04).
Proof.
  apply (first_color_is_reused _palette (0, 0, "Ammoniak") [(0, 0, "Benzol")]
           1.01 1.01 "Aceton").
  - simpl. repeat constructor; simpl; intuition discriminate.
  - simpl. lia.
  - simpl. repeat split; repeat constructor; vm_compute; discriminate.
  - vm_compute. reflexivity.
  - simpl. intuition discriminate.
Defined.

(** X12. The scenario of [test_color_assignment_complete_flow], for any
    three distinct labels and any clock: three lookups during which nothing
    expires, then two lookups of the second label, each within the timeout
    of the one before, the latter sweeping when line 67 finds the first and
    the third label older than the timeout (the float difference of the
    readings is greater than it), then a lookup of the third label.  The
    six lookups return the first three palette colors, twice the second, and
    the first again. *)
Theorem complete_flow
    (palette : list color) (A B C : string)
    (a1 a2 b1 b2 c1 c2 d1 d2 e1 e2 f1 f2 : Q) :
  NoDup [A; B; C] ->
  no_expiry [] [(a1, a2, A); (b1, b2, B); (c1, c2, C)] ->
  d2 - b1 <= TIMEOUT_SEC ->
  e2 - d1 <= TIMEOUT_SEC ->
  TIMEOUT_SEC < float_sub e2 a1 ->
  TIMEOUT_SEC < float_sub e2 c1 ->
  fst (run (lookups [(a1, a2, A); (b1, b2, B); (c1, c2, C);
                     (d1, d2, B); (e1, e2, B); (f1, f2, C)])
         (__init__ palette))
  = [Returned_color (0.9, 0.0, 0.04); Returned_color (0.54, 0.16, 0.8);
     Returned_color (1.0, 0.48, 0.0); Returned_color (0.54, 0.16, 0.8);
     Returned_color (0.54, 0.16, 0.8); Returned_color (0.9, 0.0, 0.04)].
Proof.
  intros Hnd Hfresh H4 H5 HA HC.
  assert (Hne : A <> B /\ A <> C /\ B <> C).
  { inversion Hnd as [|? ? HnA Hnd']; subst.
    inversion Hnd' as [|? ? HnB _]; subst. simpl in HnA, HnB.
    repeat split; intros ->; tauto. }
  destruct Hne as [HAB [HAC HBC]].
  assert (Hlu0 : forall l' u,
            Dict.get l' (_compound_last_used (__init__ palette)) = Some u ->
            In u []) by (intros l' u Hu; discriminate).
  assert (Hcc0 : forall l' c, assigned (__init__ palette) l' c -> In l' [])
    by (intros l' c Ha; discriminate).
  assert (Hlen : (0 + 3 <= List.length _palette)%nat) by (simpl; lia).
  pose proof (fresh_run [(a1, a2, A); (b1, b2, B); (c1, c2, C)] 0%nat [] []
                (__init__ palette) (Inv_init palette) (filled_init palette)
                Hlu0 Hcc0 Hnd (fun l _ H => H) Hfresh Hlen) as Hout.
  destruct (fresh_run_state [(a1, a2, A); (b1, b2, B); (c1, c2, C)] 0%nat [] []
              (__init__ palette) (Inv_init palette) (filled_init palette)
              Hlu0 Hcc0 Hnd (fun l _ H => H) Hfresh Hlen)
    as [HI3 [_ [Hcc3 Hlu3]]].
  change (lookups [(a1, a2, A); (b1, b2, B); (c1, c2, C);
                   (d1, d2, B); (e1, e2, B); (f1, f2, C)])
    with (lookups [(a1, a2, A); (b1, b2, B); (c1, c2, C)]
          ++ [Color_for d1 d2 B; Color_for e1 e2 B; Color_for f1 f2 C]).
  rewrite run_app. cbn [fst]. rewrite Hout.
  set (s3 := snd (run (lookups [(a1, a2, A); (b1, b2, B); (c1, c2, C)])
                    (__init__ palette))) in *.
  cbn in Hcc3, Hlu3.
  assert (HaA : assigned s3 A (0.9, 0.0, 0.04)).
  { unfold assigned. rewrite Hcc3. simpl. destruct (eq_dec A A); congruence. }
  assert (HaB : assigned s3 B (0.54, 0.16, 0.8)).
  { unfold assigned. rewrite Hcc3. simpl.
    destruct (eq_dec B A); [congruence|]. destruct (eq_dec B B); congruence. }
  assert (HuA : Dict.get A (_compound_last_used s3) = Some a1).
  { rewrite Hlu3. simpl. destruct (eq_dec A A); congruence. }
  assert (HuB : Dict.get B (_compound_last_used s3) = Some b1).
  { rewrite Hlu3. simpl.
    destruct (eq_dec B A); [congruence|]. destruct (eq_dec B B); congruence. }
  assert (HuC : Dict.get C (_compound_last_used s3) = Some c1).
  { rewrite Hlu3. simpl. destruct (eq_dec C A); [congruence|].
    destruct (eq_dec C B); [congruence|]. destruct (eq_dec C C); congruence. }
  pose proof (color_for_found d1 d2 B s3 (0.54, 0.16, 0.8) HI3 HaB
                (stale_le _ _ _ _ HuB H4)) as [R4 [HI4 [Hcc4 [Hlu4 HluB4]]]].
  cbn [run do_call].
  destruct (color_for_compound d1 d2 B s3) as [r4 s4]. cbn [fst snd] in *.
  subst r4.
  assert (HaB4 : assigned s4 B (0.54, 0.16, 0.8)).
  { unfold assigned. rewrite Hcc4, (stale_le _ _ _ _ HuB H4). exact HaB. }
  pose proof (color_for_found e1 e2 B s4 (0.54, 0.16, 0.8) HI4 HaB4
                (stale_le _ _ _ _ HluB4 H5)) as [R5 [HI5 [Hcc5 [Hlu5 HluB5]]]].
  destruct (color_for_compound e1 e2 B s4) as [r5 s5]. cbn [fst snd] in *.
  subst r5.
  assert (Hgone : forall m u, m <> B ->
            Dict.get m (_compound_last_used s3) = Some u ->
            TIMEOUT_SEC < float_sub e2 u -> forall c, ~ assigned s5 m c).
  { intros m u Hm Hu Hlt c Ha. unfold assigned in Ha. rewrite Hcc5 in Ha.
    destruct (stale e2 s4 m) eqn:E5; [discriminate|]. rewrite Hcc4 in Ha.
    destruct (stale d2 s3 m) eqn:E4; [discriminate|].
    assert (Hu4 : Dict.get m (_compound_last_used s4) = Some u)
      by (rewrite Hlu4 by assumption; rewrite E4; exact Hu).
    rewrite (stale_gt e2 s4 m u Hu4 Hlt) in E5. discriminate. }
  assert (R6 : fst (color_for_compound f1 f2 C s5) = Ok (0.9, 0.0, 0.04)).
  { apply color_for_first; [exact HI5|reflexivity| |].
    - intros m Ha. exfalso.
      assert (Ha3 : assigned s3 m (0.9, 0.0, 0.04)).
      { unfold assigned in *. rewrite Hcc5 in Ha.
        destruct (stale e2 s4 m); [discriminate|]. rewrite Hcc4 in Ha.
        destruct (stale d2 s3 m); [discriminate|exact Ha]. }
      assert (m = A) by (eapply (inv_exclusive _ HI3); eauto). subst m.
      exact (Hgone A a1 HAB HuA HA _ Ha).
    - intros c Ha. exfalso.
      apply (Hgone C c1 (fun H => HBC (eq_sym H)) HuC HC _ Ha). }
  destruct (color_for_compound f1 f2 C s5) as [r6 s6]. cbn [fst snd] in *.
  subst r6. reflexivity.
Qed.

Lemma complete_flow_witness :
  fst (run (lookups [(0, 0, "Ammoniak"); (0, 0, "Benzol"); (0, 0, "Aceton");
                     (0.7, 0.7, "Benzol"); (1.4, 1.4, "Benzol");
                     (1.4, 1.4, "Aceton")])
         (__init__ _palette))
  = [Returned_color (0.9, 0.0, 0.04); Returned_color (0.54, 0.16, 0.8);
     Returned_color (1.0, 0.48, 0.0); Returned_color (0.54, 0.16, 0.8);
     Returned_color (0.54, 0.16, 0.8); Returned_color (0.9, 0.0, 0.04)].
Proof.
  apply (complete_flow _palette "Ammoniak" "Benzol" "Aceton"
           0 0 0 0 0 0 0.7 0.7 1.4 1.4 1.4 1.4).
  - repeat constructor; simpl; intuition discriminate.
  - simpl. repeat split; repeat constructor; vm_compute; discriminate.
  - vm_compute. discriminate.
  - vm_compute. discriminate.
  - vm_compute. reflexivity.
  - vm_compute. reflexivity.
Defined.

(** X13. Whatever palette an assigner was constructed with and whatever
    calls it has answered, the dictionary the getter returns next binds
    each label once, binds no color twice, binds only colors of the
    module's palette, and has at most as many entries as that palette has
    colors. *)
Theorem legend_is_well_formed
    (palette : list color) (calls : list call) (t : Q) :
  exists d s',
    do_call (Assignments t) (snd (run calls (__init__ palette)))
    = (Returned_dict d, s')
    /\ NoDup (Dict.keys d)
    /\ NoDup (Dict.values d)
    /\ incl (Dict.values d) _palette
    /\ (List.length d <= List.length _palette)%nat.
Proof.
  assert (HI : Inv (snd (run calls (__init__ palette))))
    by (apply run_Inv, Inv_init).
  destruct (sweep_ok t _ HI) as [s1 [E [_ HI1]]].
  exists (_compound_to_color s1), s1. cbn [do_call]. rewrite E.
  split; [reflexivity|].
  assert (Hsub : incl (Dict.values (_compound_to_color s1)) _palette).
  { intros c Hc. apply (values_In s1 c HI1) in Hc. destruct Hc as [l Ha].
    eapply assigned_In_palette; eauto. }
  split; [apply (inv_to_color_keys _ HI1)|].
  split; [now apply values_NoDup|]. split; [exact Hsub|].
  rewrite <- (length_map snd (_compound_to_color s1)).
  apply NoDup_incl_length; [now apply values_NoDup|exact Hsub].
Qed.

(** X14. The expiry test of line 67 in exact terms.  In a state that
    satisfies the invariants, a sweep at reading [t] removes a label stamped
    [u], from both tables, exactly when the exact difference [t - u] exceeds
    [1 + 2^(-53)], the midpoint between the timeout and the next float: the
    float subtraction rounds every difference up to that midpoint down to
    the timeout. *)
Theorem expiry_threshold
    (s : ColorAssigner) (t : Q) (l : string) (u : Q) :
  Inv s ->
  Dict.get l (_compound_last_used s) = Some u ->
  let s1 := snd (get_compound_to_color_assignments t s) in
  (Dict.get l (_compound_last_used s1) = None <-> 1 + 2 ^ (-53) < t - u)
  /\ (Dict.get l (_compound_to_color s1) = None <-> 1 + 2 ^ (-53) < t - u).
Proof.
  intros HI Hu s1. destruct (sweep_ok t s HI) as [s1' [E [Hsw _]]].
  assert (Hs1 : s1 = s1') by (unfold s1; now rewrite E). rewrite Hs1.
  clear s1 Hs1.
  destruct (last_used_assigned s l u HI Hu) as [c Ha]. unfold assigned in Ha.
  rewrite (swept_last_used _ _ _ Hsw), (swept_to_color _ _ _ Hsw).
  rewrite <- expired_iff. unfold stale. rewrite Hu, Ha.
  destruct (Qgt_bool (float_sub t u) TIMEOUT_SEC);
    split; split; congruence.
Qed.

Lemma expiry_threshold_witness :
  Dict.get "Ammoniak"
    (_compound_last_used
       (snd (get_compound_to_color_assignments (round64 1.1)
               (snd (color_for_compound (round64 0.1) (round64 0.1) "Ammoniak"
                       (__init__ _palette))))))
  = None
  <-> 1 + 2 ^ (-53) < round64 1.1 - round64 0.1.
Proof.
  apply (expiry_threshold
           (snd (color_for_compound (round64 0.1) (round64 0.1) "Ammoniak"
                   (__init__ _palette)))
           (round64 1.1) "Ammoniak" (round64 0.1)).
  - apply Inv_check_sound. vm_compute. reflexivity.
  - vm_compute. reflexivity.
Defined.
